(** * Pilgrim Map Kit: the track profile and the cursor locator

    A shallow embedding of [toRad], [haversineMiles], [parseGPXToSeries]
    and [kmToIndex] (with the lookup of [updateFromEvent]) of the map kit.

    The JavaScript code computes on Numbers.  The embedding is written once,
    over an interface [Number] of the operations the code uses, and is read
    at two instances:
    - [float]: IEEE 754 binary64, the kernel's primitive floats, where the
      code can be run on concrete tracks ([Math.sin], [Math.cos] and
      [Math.asin] are implementation-approximated in ECMAScript, so that
      instance takes them from a [Host]);
    - [xreal]: the reals extended with [NaN], where the arithmetic is exact
      and the numeric statements are proved. *)

From Stdlib Require Import String ZArith List Bool Lia.
From Stdlib Require Import Floats Uint63.
From Stdlib Require Import Reals Lra.
Import ListNotations.

Set Implicit Arguments.

(** ** The operations of a JavaScript Number the code uses *)

Class Number (num : Type) : Type := {
  (* the numeric literals of the source *)
  lit_0 : num;
  lit_2 : num;
  lit_180 : num;
  lit_6371 : num;
  lit_0_621371 : num;
  lit_3_28084 : num;
  Math_PI : num;
  (* a + b, a - b, a * b, a / b, a ** 2 *)
  nadd : num -> num -> num;
  nsub : num -> num -> num;
  nmul : num -> num -> num;
  ndiv : num -> num -> num;
  sqr : num -> num;
  Math_sin : num -> num;
  Math_cos : num -> num;
  Math_asin : num -> num;
  Math_sqrt : num -> num;
  Math_abs : num -> num;
  isFinite : num -> bool;
  (* a < b and a <= b *)
  nlt : num -> num -> bool;
  nle : num -> num -> bool
}.

(** *** Instance 1: IEEE 754 binary64

    The arithmetic, [Math.sqrt], [Math.abs], [isFinite] and the comparisons
    are those of binary64; [a ** 2] is read as [a * a]; the literals are the
    doubles nearest to the decimals of the source. *)

Record Host : Type := {
  host_sin : float -> float;
  host_cos : float -> float;
  host_asin : float -> float
}.

#[export] Instance float_Number (h : Host) : Number float := {
  lit_0 := 0%float;
  lit_2 := 2%float;
  lit_180 := 180%float;
  lit_6371 := 6371%float;
  lit_0_621371 := 0x1.3e2456f75d9a1p-1%float;
  lit_3_28084 := 0x1.a3f290abb44e5p+1%float;
  Math_PI := 0x1.921fb54442d18p+1%float;
  nadd := PrimFloat.add;
  nsub := PrimFloat.sub;
  nmul := PrimFloat.mul;
  ndiv := PrimFloat.div;
  sqr := fun x => PrimFloat.mul x x;
  Math_sin := host_sin h;
  Math_cos := host_cos h;
  Math_asin := host_asin h;
  Math_sqrt := PrimFloat.sqrt;
  Math_abs := PrimFloat.abs;
  isFinite := PrimFloat.is_finite;
  nlt := PrimFloat.ltb;
  nle := PrimFloat.leb
}.

(** *** Instance 2: exact arithmetic, the reals with [NaN]

    No rounding and no overflow, hence no infinity: a Number is a real, or
    [NaN] (a text that is no number, a square root or an arc sine outside
    its domain). *)

Inductive xreal : Type :=
| XNaN : xreal
| XR (r : R) : xreal.

Definition Rltb (a b : R) : bool := if Rlt_dec a b then true else false.
Definition Rleb (a b : R) : bool := if Rle_dec a b then true else false.

Definition xlift1 (f : R -> R) (a : xreal) : xreal :=
  match a with
  | XR x => XR (f x)
  | XNaN => XNaN
  end.

Definition xlift2 (f : R -> R -> R) (a b : xreal) : xreal :=
  match a, b with
  | XR x, XR y => XR (f x y)
  | _, _ => XNaN
  end.

(* x / 0 is an infinity or NaN on doubles; this instance has no infinity *)
Definition xdiv (a b : xreal) : xreal :=
  match a, b with
  | XR x, XR y => if Req_dec_T y 0 then XNaN else XR (x / y)
  | _, _ => XNaN
  end.

Definition xsqrt (a : xreal) : xreal :=
  match a with
  | XR x => if Rlt_dec x 0 then XNaN else XR (sqrt x)
  | XNaN => XNaN
  end.

Definition xasin (a : xreal) : xreal :=
  match a with
  | XR x => if Rlt_dec x (-1) then XNaN
            else if Rlt_dec 1 x then XNaN else XR (asin x)
  | XNaN => XNaN
  end.

Definition xisFinite (a : xreal) : bool :=
  match a with
  | XR _ => true
  | XNaN => false
  end.

Definition xcmp (c : R -> R -> bool) (a b : xreal) : bool :=
  match a, b with
  | XR x, XR y => c x y
  | _, _ => false
  end.

#[export] Instance xreal_Number : Number xreal := {
  lit_0 := XR 0;
  lit_2 := XR 2;
  lit_180 := XR 180;
  lit_6371 := XR 6371;
  lit_0_621371 := XR (621371 / 1000000);
  lit_3_28084 := XR (328084 / 100000);
  Math_PI := XR PI;
  nadd := xlift2 Rplus;
  nsub := xlift2 Rminus;
  nmul := xlift2 Rmult;
  ndiv := xdiv;
  sqr := xlift1 Rsqr;
  Math_sin := xlift1 sin;
  Math_cos := xlift1 cos;
  Math_asin := xasin;
  Math_sqrt := xsqrt;
  Math_abs := xlift1 Rabs;
  isFinite := xisFinite;
  nlt := xcmp Rltb;
  nle := xcmp Rleb
}.

(** ** Values and arrays *)

(* An array read [a[i]]: [None] is [undefined], the value of a read outside
   the array. *)
Definition get {A : Type} (a : list A) (i : Z) : option A :=
  if (i <? 0)%Z then None else nth_error a (Z.to_nat i).

(* a.length *)
Definition length_Z {A : Type} (a : list A) : Z := Z.of_nat (length a).

(* [a.map((v, s) => f(v, s))], [s] the position in [a] *)
Fixpoint mapi_from {A B : Type} (f : A -> Z -> B) (s : Z) (a : list A) : list B :=
  match a with
  | [] => []
  | v :: r => f v s :: mapi_from f (s + 1)%Z r
  end.

Definition mapi {A B : Type} (f : A -> Z -> B) (a : list A) : list B :=
  mapi_from f 0%Z a.

(* ToInt32 of an integer, and [v >> 1] *)
Definition ToInt32 (v : Z) : Z := ((v + 2 ^ 31) mod 2 ^ 32 - 2 ^ 31)%Z.
Definition sar1 (v : Z) : Z := Z.shiftr (ToInt32 v) 1.

Section Code.

Context {num : Type} {N : Number num}.

(** ** The track document

    What [parseGPXToSeries] reads of the parsed XML: the [trk] elements in
    document order, of each its [trkpt] descendants in document order, and of
    each [trkpt] the three readings: [parseFloat] of the attributes [lat] and
    [lon], and [parseFloat] of the text of its first [ele] element, [None]
    when it has no [ele] element. *)

Record trkpt : Type := {
  lat_attr : num;
  lon_attr : num;
  ele_elem : option num
}.

Definition trk : Type := list trkpt.

Record point : Type := { lat : num; lon : num; ele : num }.

Record marker : Type := { x : option num; y : option num; _isFinal : bool }.

Record Series : Type := {
  pts : list point;
  distMi : list num;
  elevFt : list num;
  totalMi : option num;
  stageScatter : list marker
}.

Inductive result (A : Type) : Type :=
| Throw (msg : string)
| Return (v : A).

(** ** toRad, haversineMiles *)

Definition toRad (deg : num) : num := ndiv (nmul deg Math_PI) lit_180.

Definition haversineMiles (a b : point) : num :=
  let R_km := lit_6371 in
  let dLat := toRad (nsub (lat b) (lat a)) in
  let dLon := toRad (nsub (lon b) (lon a)) in
  let A := nadd (sqr (Math_sin (ndiv dLat lit_2)))
                (nmul (nmul (Math_cos (toRad (lat a))) (Math_cos (toRad (lat b))))
                      (sqr (Math_sin (ndiv dLon lit_2)))) in
  let d_km := nmul (nmul lit_2 R_km) (Math_asin (Math_sqrt A)) in
  nmul d_km lit_0_621371.

(** ** parseGPXToSeries *)

(* pt => ({ lat: ..., lon: ..., ele: parseFloat(...[0]?.textContent ?? '0') }) *)
Definition readPoint (pt : trkpt) : point :=
  {| lat := lat_attr pt;
     lon := lon_attr pt;
     ele := match ele_elem pt with
            | Some v => v
            | None => lit_0
            end |}.

(* trks.forEach(trk => { pts.push(...ptsInTrk); stageEndIdx.push(pts.length - 1) }) *)
Fixpoint collect (trks : list trk) (pts : list point) (stageEndIdx : list Z)
  : list point * list Z :=
  match trks with
  | [] => (pts, stageEndIdx)
  | t :: rest =>
      let pts' := pts ++ map readPoint t in
      collect rest pts' (stageEndIdx ++ [length_Z pts' - 1])%Z
  end.

(* The body of [for (let i = 1; i < pts.length; i++)], from the point at
   [i]: [prev] is [pts[i-1]], [d] is [distMi[i-1]] and [e] is [elevFt[i-1]];
   the result is what the loop pushes on [distMi] and on [elevFt]. *)
Fixpoint accumulate (prev : point) (d e : num) (rest : list point)
  : list num * list num :=
  match rest with
  | [] => ([], [])
  | p :: rest' =>
      let d' := nadd d (haversineMiles prev p) in
      let ele_i := if isFinite (ele p) then ele p else ndiv e lit_3_28084 in
      let e' := nmul ele_i lit_3_28084 in
      let '(ds, es) := accumulate p d' e' rest' in
      (d' :: ds, e' :: es)
  end.

(* distMi = [0], elevFt = [(pts[0]?.ele ?? 0) * 3.28084], and the loop *)
Definition build (pts : list point) : list num * list num :=
  match pts with
  | [] => ([lit_0], [nmul lit_0 lit_3_28084])
  | p0 :: rest =>
      let e0 := nmul (ele p0) lit_3_28084 in
      let '(ds, es) := accumulate p0 lit_0 e0 rest in
      (lit_0 :: ds, e0 :: es)
  end.

(* stageEndIdx.filter(idx => idx > 0).map((idx, s) => ({ x: distMi[idx],
   y: elevFt[idx], _isFinal: s === stageEndIdx.length - 1 })) *)
Definition stages (stageEndIdx : list Z) (distMi elevFt : list num) : list marker :=
  mapi (fun idx s =>
          {| x := get distMi idx;
             y := get elevFt idx;
             _isFinal := (s =? length_Z stageEndIdx - 1)%Z |})
       (filter (fun idx => (0 <? idx)%Z) stageEndIdx).

Definition parseGPXToSeries (trks : list trk) : result Series :=
  if (length trks =? 0)%nat then Throw Series "No <trk> in GPX"%string
  else
    let '(pts, stageEndIdx) := collect trks [] [] in
    let '(distMi, elevFt) := build pts in
    let totalMi := get distMi (length_Z distMi - 1) in
    Return {| pts := pts; distMi := distMi; elevFt := elevFt;
              totalMi := totalMi;
              stageScatter := stages stageEndIdx distMi elevFt |}.

(** ** kmToIndex and the lookup of updateFromEvent *)

(* [a < mi], where [a] is an array read: a comparison with [undefined] is
   false *)
Definition lt_read (a : option num) (mi : num) : bool :=
  match a with
  | Some v => nlt v mi
  | None => false
  end.

(* Math.abs(a - mi) <= Math.abs(b - mi) *)
Definition nearer_or_equal (a b : option num) (mi : num) : bool :=
  match a, b with
  | Some v, Some w => nle (Math_abs (nsub v mi)) (Math_abs (nsub w mi))
  | _, _ => false
  end.

(* [while (lo < hi) { ... }]: [None] when [fuel] iterations do not end it *)
Fixpoint search (fuel : nat) (distMi : list num) (mi : num) (lo hi : Z) : option Z :=
  if (lo <? hi)%Z then
    match fuel with
    | O => None
    | S fuel' =>
        let mid := sar1 (lo + hi) in
        if lt_read (get distMi mid) mi
        then search fuel' distMi mi (mid + 1)%Z hi
        else search fuel' distMi mi lo mid
    end
  else Some lo.

(* [fuel] bounds the iterations of the loop; it is not in the result *)
Definition kmToIndex (fuel : nat) (distMi : list num) (mi : num) : option Z :=
  match search fuel distMi mi 0%Z (length_Z distMi - 1)%Z with
  | None => None
  | Some lo =>
      let i2 := lo in
      let i1 := Z.max 0 (lo - 1) in
      Some (if nearer_or_equal (get distMi i1) (get distMi i2) mi then i1 else i2)
  end.

(* updateFromEvent, from [const idx = kmToIndex(mi)] to [if (!pt) return]:
   the index and the point handed to the marker and to the chart *)
Definition updateFromEvent (fuel : nat) (s : Series) (mi : num) : option (Z * point) :=
  match kmToIndex fuel (distMi s) mi with
  | None => None
  | Some idx =>
      match get (pts s) idx with
      | None => None
      | Some pt => Some (idx, pt)
      end
  end.

End Code.

Arguments trkpt num : clear implicits.
Arguments point num : clear implicits.
Arguments marker num : clear implicits.
Arguments Series num : clear implicits.
Arguments trk num : clear implicits.

(** ** Vocabulary of the statements *)

Section Vocabulary.

Context {num : Type} {N : Number num}.

(* the end indexes [collect] pushes, the flat sequence being at length [n] *)
Fixpoint ends_from (n : Z) (trks : list (trk num)) : list Z :=
  match trks with
  | [] => []
  | t :: rest =>
      let n' := (n + length_Z t)%Z in
      (n' - 1)%Z :: ends_from n' rest
  end.

(* elevFt[i] of the loop, from the reading at [i] and elevFt[i-1] *)
Definition elevation_at (p : point num) (ePrev : num) : num :=
  nmul (if isFinite (ele p) then ele p else ndiv ePrev lit_3_28084) lit_3_28084.

(* the test of the loop at index [j] *)
Definition below (distMi : list num) (mi : num) (j : Z) : bool :=
  lt_read (get distMi j) mi.

(* |d - mi| *)
Definition gap (mi d : num) : num := Math_abs (nsub d mi).

(* [i2] is the smallest index with [distMi[i2] >= mi] *)
Definition lower_bound (distMi : list num) (mi : num) (i2 : Z) : Prop :=
  (exists d, get distMi i2 = Some d /\ nle mi d = true) /\
  (forall j d, (0 <= j < i2)%Z -> get distMi j = Some d -> nlt d mi = true).

(* distMi[i-1] <= distMi[i] for every i in 1..N-1 *)
Definition non_decreasing (distMi : list num) : Prop :=
  forall i a b,
    nth_error distMi i = Some a -> nth_error distMi (S i) = Some b ->
    nle a b = true.

End Vocabulary.

(** ** The haversine formula over the reals *)


(* The value under the square root *)
Definition hav_A (la1 lo1 la2 lo2 : R) : R :=
  Rsqr (sin ((la2 - la1) * PI / 180 / 2)) +
  cos (la1 * PI / 180) * cos (la2 * PI / 180) *
  Rsqr (sin ((lo2 - lo1) * PI / 180 / 2)).

(* d_km * 0.621371 *)
Definition hav_miles (la1 lo1 la2 lo2 : R) : R :=
  2 * 6371 * asin (sqrt (hav_A la1 lo1 la2 lo2)) * (621371 / 1000000).

(** ** The tracks of the scenarios and of the examples *)

(* Scenario A: (0, 0) and (0, 1), in one segment *)
Definition equator_point (lon_deg : R) : trkpt xreal :=
  {| lat_attr := XR 0; lon_attr := XR lon_deg; ele_elem := Some (XR 0) |}.

Definition scenario_A : list (trk xreal) := [[equator_point 0; equator_point 1]].

(* Scenario B: segments of 5, 4 and 3 points *)
Definition flat_point (i : Z) : trkpt xreal :=
  {| lat_attr := XR 0; lon_attr := XR (IZR i / 100); ele_elem := Some (XR 0) |}.

Definition scenario_B : list (trk xreal) :=
  [ map flat_point [0; 1; 2; 3; 4]%Z;
    map flat_point [5; 6; 7; 8]%Z;
    map flat_point [9; 10; 11]%Z ].

(* a point at (0, 0) with the elevation reading [e] *)
Definition reading (e : option xreal) : trkpt xreal :=
  {| lat_attr := XR 0; lon_attr := XR 0; ele_elem := e |}.

(* readings 100 m, then no [ele] element *)
Definition track_missing_ele : list (trk xreal) :=
  [[reading (Some (XR 100)); reading None]].

(* a Series of two points *)
Definition two_point_series : Series xreal :=
  {| pts := [ {| lat := XR 0; lon := XR 0; ele := XR 100 |};
              {| lat := XR 0; lon := XR 1; ele := XR 110 |} ];
     distMi := [XR 0; XR 69];
     elevFt := [XR 328; XR 361];
     totalMi := Some (XR 69);
     stageScatter := [] |}.

(* a point at (0, 0) with the elevation reading [e], on doubles *)
Definition reading64 (e : option float) : trkpt float :=
  {| lat_attr := 0%float; lon_attr := 0%float; ele_elem := e |}.

(* the reading of a decimal text with two decimals, [n / 100], on doubles *)
Definition float_of_Z (z : Z) : float :=
  match z with
  | Z0 => 0%float
  | Zpos _ => PrimFloat.of_uint63 (Uint63.of_Z z)
  | Zneg p => PrimFloat.opp (PrimFloat.of_uint63 (Uint63.of_Z (Zpos p)))
  end.

Definition centimetres (n : Z) : float := PrimFloat.div (float_of_Z n) 100%float.

(* [f] holds at the [n] integers from [lo] on *)
Definition all_from (f : Z -> bool) (lo : Z) (n : positive) : bool :=
  fst (Pos.iter (fun st : bool * Z => (fst st && f (snd st), (snd st + 1)%Z))
         (true, lo) n).

(* on doubles, dividing the converted elevation [e * 3.28084] by the factor
   and multiplying again gives it back *)
Definition reconverts (e : float) : bool :=
  let c := 0x1.a3f290abb44e5p+1%float in
  let elev := PrimFloat.mul e c in
  PrimFloat.eqb (PrimFloat.mul (PrimFloat.div elev c) c) elev.

(** ** The cursor handlers of createPilgrimMap

    The handlers of [mousemove], [mouseleave] and [click] on the chart canvas,
    on what they change: the cursor marker of the map (created once by
    [ensureCursorMarker], then moved and shown or hidden), the active elements
    of the chart, and the positions the map is panned to.  Of Leaflet and
    Chart.js the model keeps that a marker holds the position and the style it
    was last given, that the chart holds the active elements it was last
    given, and that Leaflet throws on a position with a [NaN] coordinate,
    which ends the handler before it changes anything. *)

Section Cursor.

Context {num : Type} {N : Number num}.

Record circleMarker : Type := {
  latlng : num * num;
  opacity : Z;
  fillOpacity : Z
}.

Record widget : Type := {
  cursorMarker : option circleMarker;
  activeElements : list (Z * Z);   (* { datasetIndex, index } *)
  panTo : list (num * num)         (* the calls of map.panTo, in order *)
}.

(* let cursorMarker = null, a chart without active elements *)
Definition initial_widget : widget :=
  {| cursorMarker := None; activeElements := []; panTo := [] |}.

(* isNaN *)
Definition isNaN (v : num) : bool := negb (nle v v).

Definition ensureCursorMarker (ll : num * num) (w : widget) : widget :=
  match cursorMarker w with
  | Some _ => w
  | None =>
      {| cursorMarker := Some {| latlng := ll; opacity := 0; fillOpacity := 0 |};
         activeElements := activeElements w;
         panTo := panTo w |}
  end.

(* updateFromEvent, [mi] being xScale.getValueForPixel(xPx) *)
Definition on_mousemove (fuel : nat) (s : Series num) (mi : num) (w : widget) : widget :=
  match updateFromEvent fuel s mi with
  | None => w
  | Some (idx, pt) =>
      if isNaN (lat pt) || isNaN (lon pt) then w
      else
        let w1 := ensureCursorMarker (lat pt, lon pt) w in
        {| cursorMarker :=
             option_map (fun _ => {| latlng := (lat pt, lon pt);
                                     opacity := 1; fillOpacity := 1 |})
                        (cursorMarker w1);
           activeElements := [(0%Z, idx)];
           panTo := panTo w1 |}
  end.

Definition on_mouseleave (w : widget) : widget :=
  {| cursorMarker :=
       option_map (fun m => {| latlng := latlng m; opacity := 0; fillOpacity := 0 |})
                  (cursorMarker w);
     activeElements := [];
     panTo := panTo w |}.

Definition on_click (w : widget) : widget :=
  match cursorMarker w with
  | None => w
  | Some m =>
      {| cursorMarker := cursorMarker w;
         activeElements := activeElements w;
         panTo := panTo w ++ [latlng m] |}
  end.

Inductive event : Type :=
| Mousemove (mi : num)
| Mouseleave
| Click.

Definition handle (fuel : nat) (s : Series num) (w : widget) (e : event) : widget :=
  match e with
  | Mousemove mi => on_mousemove fuel s mi w
  | Mouseleave => on_mouseleave w
  | Click => on_click w
  end.

(* the events of a session, handled one after the other *)
Definition session (fuel : nat) (s : Series num) (evs : list event) : widget :=
  fold_left (handle fuel s) evs initial_widget.

End Cursor.

Arguments circleMarker num : clear implicits.
Arguments widget num : clear implicits.
Arguments event num : clear implicits.

(* The map and the chart show the same point: the chart has no active element
   and the marker, if there is one, is hidden; or the chart has the one active
   element [{ datasetIndex: 0, index: idx }] and the marker is shown at
   [pts[idx]].  The marker and every pan are at a point of the track. *)
Definition in_sync {num : Type} (s : Series num) (w : widget num) : Prop :=
  (forall ll, In ll (panTo w) ->
              exists pt, In pt (pts s) /\ ll = (lat pt, lon pt)) /\
  match activeElements w with
  | [] =>
      match cursorMarker w with
      | None => True
      | Some m =>
          opacity m = 0%Z /\ fillOpacity m = 0%Z /\
          exists pt, In pt (pts s) /\ latlng m = (lat pt, lon pt)
      end
  | [(ds, idx)] =>
      ds = 0%Z /\
      exists pt m,
        get (pts s) idx = Some pt /\ cursorMarker w = Some m /\
        latlng m = (lat pt, lon pt) /\ opacity m = 1%Z /\ fillOpacity m = 1%Z
  | _ :: _ :: _ => False
  end.

(** ** ensureLeafletCss, loadScriptOnce, ensureLibs

    The page, on what these functions change: the [link] elements that carry
    [data-pmk-leaflet], the [script] elements appended to the head, by their
    [src] and in order, and [PMK._scriptCache].  A promise is known by the
    [script] element it waits for, by its position among the scripts.  The
    cache holds its own keys only: the three keys [ensureLibs] uses are no
    property of [Object.prototype]. *)

Record page : Type := {
  leaflet_links : nat;                      (* link[data-pmk-leaflet] in the document *)
  scripts : list string;                    (* the src of the scripts appended *)
  _scriptCache : list (string * nat)        (* key, promise *)
}.

(* PMK._scriptCache[key] *)
Fixpoint cached (key : string) (cache : list (string * nat)) : option nat :=
  match cache with
  | [] => None
  | (k, p) :: rest => if String.eqb k key then Some p else cached key rest
  end.

Definition ensureLeafletCss (pg : page) : page :=
  if (0 <? leaflet_links pg)%nat then pg
  else {| leaflet_links := 1;
          scripts := scripts pg;
          _scriptCache := _scriptCache pg |}.

Definition loadScriptOnce (url key : string) (pg : page) : nat * page :=
  match cached key (_scriptCache pg) with
  | Some p => (p, pg)
  | None =>
      let p := length (scripts pg) in
      (p, {| leaflet_links := leaflet_links pg;
             scripts := scripts pg ++ [url];
             _scriptCache := (key, p) :: _scriptCache pg |})
  end.

Definition leaflet_js : string :=
  "https://unpkg.com/leaflet@1.9.4/dist/leaflet.js".
Definition leaflet_gpx_js : string :=
  "https://cdn.jsdelivr.net/npm/leaflet-gpx@1.7.0/dist/leaflet-gpx.min.js".
Definition chart_js : string :=
  "https://cdn.jsdelivr.net/npm/chart.js@4.4.1/dist/chart.umd.min.js".

(* opts.wantsChart and opts.wantsGPX: [None] is a field that is not given *)
Record libs_opts : Type := {
  wantsChart : option bool;
  wantsGPX : option bool
}.

(* v !== false *)
Definition not_false (v : option bool) : bool :=
  match v with
  | Some false => false
  | _ => true
  end.

(* the promises handed to Promise.all, and the page *)
Definition ensureLibs (opts : libs_opts) (pg : page) : list nat * page :=
  let pg := ensureLeafletCss pg in
  let '(p1, pg) := loadScriptOnce leaflet_js "leaflet" pg in
  let '(p2, pg) :=
    if not_false (wantsGPX opts)
    then let '(p, pg) := loadScriptOnce leaflet_gpx_js "leaflet-gpx" pg in ([p], pg)
    else ([], pg) in
  let '(p3, pg) :=
    if not_false (wantsChart opts)
    then let '(p, pg) := loadScriptOnce chart_js "chart" pg in ([p], pg)
    else ([], pg) in
  (p1 :: p2 ++ p3, pg).

(* a page before the kit runs: no script of the kit, an empty cache *)
Definition fresh_page (links : nat) : page :=
  {| leaflet_links := links; scripts := []; _scriptCache := [] |}.

(* the calls of ensureLibs of a page, one after the other *)
Definition ensureLibs_all (calls : list libs_opts) (pg : page) : page :=
  fold_left (fun pg opts => snd (ensureLibs opts pg)) calls pg.

(* the three libraries, by their key and their url *)
Definition libs : list (string * string) :=
  [ ("leaflet"%string, leaflet_js);
    ("leaflet-gpx"%string, leaflet_gpx_js);
    ("chart"%string, chart_js) ].

(* Every library that is cached has its script in the page, at the position
   its promise names, and no other script is in the page. *)
Definition page_ok (pg : page) : Prop :=
  (forall key url, In (key, url) libs ->
     match cached key (_scriptCache pg) with
     | Some p => nth_error (scripts pg) p = Some url
     | None => ~ In url (scripts pg)
     end) /\
  NoDup (scripts pg) /\
  incl (scripts pg) (map snd libs).

(** ** groupConsecutiveMonths and drawSeasonBands (pilgrim-temp-chart.js)

    The months of a band are whole numbers, [0] for January to [11] for
    December, and so are the pixel sizes of the layout: on whole numbers
    below [2^53] the sums, the differences and the products taken here are
    exact on doubles, and they are written on [Z]. *)

Section Months.

Local Open Scope Z_scope.

(* Array.from(new Set(nums)): every value once, where it comes first *)
Fixpoint distinct (seen nums : list Z) : list Z :=
  match nums with
  | [] => []
  | n :: rest =>
      if existsb (Z.eqb n) seen then distinct seen rest
      else n :: distinct (n :: seen) rest
  end.

(* .sort((a,b)=>a-b): the comparator is a consistent order, so the result is
   the ascending arrangement, whatever method the engine sorts with *)
Fixpoint insert (a : Z) (l : list Z) : list Z :=
  match l with
  | [] => [a]
  | b :: rest => if a <=? b then a :: l else b :: insert a rest
  end.

Definition sort_ascending (l : list Z) : list Z := fold_right insert [] l.

(* The loop over [arr[1]], [arr[2]], ...: [prev] is [arr[i-1]], [rest] is
   what is left of [arr] from [i] on; its result is [groups] after the
   [groups.push(cur)] that follows the loop. *)
Fixpoint group_loop (prev : Z) (cur : list Z) (groups : list (list Z))
                    (rest : list Z) : list (list Z) :=
  match rest with
  | [] => groups ++ [cur]
  | a :: rest' =>
      if a =? prev + 1 then group_loop a (cur ++ [a]) groups rest'
      else group_loop a [a] (groups ++ [cur]) rest'
  end.

(* groups.pop(): [None] is [undefined], of an empty array *)
Fixpoint pop {A : Type} (l : list A) : option (list A * A) :=
  match l with
  | [] => None
  | a :: r =>
      match pop r with
      | None => Some ([], a)
      | Some (r', z) => Some (a :: r', z)
      end
  end.

(* the wrap join (Dec -> Jan); [last.concat] of [undefined] is a TypeError *)
Definition wrap_join (arr : list Z) (groups : list (list Z))
  : result (list (list Z)) :=
  match arr with
  | [] => Return groups
  | a0 :: _ =>
      if (a0 =? 0) && (last arr 0 =? 11) then
        match groups with
        | [] => Throw _ "TypeError"
        | first :: groups' =>
            match pop groups' with
            | None => Throw _ "TypeError"
            | Some (groups'', last) => Return ((last ++ first) :: groups'')
            end
        end
      else Return groups
  end.

(* [nums] is [None] for a value that is [null] or [undefined].  [arr] is not
   empty when [nums] is not: the branch on [[]] below is never taken. *)
Definition groupConsecutiveMonths (nums : option (list Z))
  : result (list (list Z)) :=
  match nums with
  | None | Some [] => Return []
  | Some nums =>
      let arr := sort_ascending (distinct [] nums) in
      match arr with
      | [] => Return []
      | a0 :: rest => wrap_join arr (group_loop a0 [a0] [] rest)
      end
  end.

(* rect(x,y,w,h,fill); [rect_x] is [None] where [xBand(undefined)] is [NaN] *)
Record rect : Type := {
  rect_x : option Z;
  rect_y : Z;
  rect_width : Z;
  rect_height : Z;
  rect_fill : string
}.

(* the rectangle of one group: the function given to [forEach] *)
Definition season_band (dx m_t innerH : Z) (xBand : Z -> Z) (fill : string)
                       (g : list Z) : rect :=
  let start := hd_error g in
  let w := dx * Z.of_nat (length g) in
  {| rect_x := option_map xBand start;
     rect_y := m_t;
     rect_width := w;
     rect_height := innerH;
     rect_fill := fill |}.

(* The rectangles appended to the drawing, in order. *)
Definition drawSeasonBands (dx m_t innerH : Z) (xBand : Z -> Z)
                           (arr : option (list Z)) (fill : string)
  : result (list rect) :=
  match groupConsecutiveMonths arr with
  | Throw _ msg => Throw _ msg
  | Return groups => Return (map (season_band dx m_t innerH xBand fill) groups)
  end.

(* const xBand = i => m.l + i*dx; of drawTemps and of drawPrecip *)
Definition xBand (m_l dx : Z) (i : Z) : Z := m_l + i * dx.

(** *** Vocabulary on months and bands *)

(* every value is followed by the next whole number *)
Fixpoint consecutive (l : list Z) : Prop :=
  match l with
  | x :: (y :: _) as t => y = x + 1 /\ consecutive t
  | _ => True
  end.

(* every month is followed by the next month of the year, January after
   December *)
Fixpoint consecutive_in_year (l : list Z) : Prop :=
  match l with
  | x :: (y :: _) as t => (y = x + 1 \/ (x = 11 /\ y = 0)) /\ consecutive_in_year t
  | _ => True
  end.

Fixpoint increasing (l : list Z) : Prop :=
  match l with
  | x :: (y :: _) as t => x < y /\ increasing t
  | _ => True
  end.

(* the months after a group come later than the month that follows it *)
Fixpoint apart (groups : list (list Z)) : Prop :=
  match groups with
  | [] => True
  | g :: t => (forall v, In v (concat t) -> last g 0 + 1 < v) /\ apart t
  end.

(* the rectangle lies over the whole column of month [i] *)
Definition shades (m_l dx : Z) (r : rect) (i : Z) : Prop :=
  match rect_x r with
  | Some x => x <= xBand m_l dx i /\ xBand m_l dx (i + 1) <= x + rect_width r
  | None => False
  end.

End Months.

(** ** Further tracks *)


(* readings 100 m, then two texts that are no numbers *)
Definition track_gap_run : list (trk xreal) :=
  [[reading (Some (XR 100)); reading (Some XNaN); reading (Some XNaN)]].

(** ** The engine's limit on the arguments of a call

    [pts.push(...ptsInTrk)] passes the points of a segment as the arguments
    of one call.  An engine allows so many arguments and no more (on V8 the
    call fails from about 125000 on, with the stack it has left), and throws
    a [RangeError] on a longer segment.  [collect] and [parseGPXToSeries]
    above are the code on the segments the engine takes; with the limit
    [max_args] of the engine the function is [parseGPXToSeries_on]: the
    first segment that is too long ends it, and nothing it had done before
    is seen from outside. *)

Section Engine.

Context {num : Type} {N : Number num}.

Definition parseGPXToSeries_on (max_args : nat) (trks : list (trk num))
  : result (Series num) :=
  if (length trks =? 0)%nat then Throw (Series num) "No <trk> in GPX"%string
  else if existsb (fun t : trk num => (max_args <? length t)%nat) trks
       then Throw (Series num) "RangeError"%string
       else parseGPXToSeries trks.

End Engine.

(** ** Doubles: their order, and the reals they stand for *)

(* The order of [SFcompare] on the doubles that are numbers: by the sign
   class first, then by the exponent, then by the mantissa, both reversed
   below zero. *)
Definition rank (x : spec_float) : Z * (Z * Z) :=
  match x with
  | S754_infinity true => (-2, (0, 0))
  | S754_finite true m e => (-1, (- e, - Zpos m))
  | S754_zero _ => (0, (0, 0))
  | S754_finite false m e => (1, (e, Zpos m))
  | S754_infinity false => (2, (0, 0))
  | S754_nan => (3, (0, 0))
  end%Z.

Definition is_number (x : spec_float) : Prop := x <> S754_nan.

Definition lex_lt (a b : Z * (Z * Z)) : Prop :=
  (fst a < fst b \/
   (fst a = fst b /\
    (fst (snd a) < fst (snd b) \/
     (fst (snd a) = fst (snd b) /\ snd (snd a) < snd (snd b)))))%Z.

Definition lex_le (a b : Z * (Z * Z)) : Prop :=
  lex_lt a b \/
  (fst a = fst b /\ fst (snd a) = fst (snd b) /\ snd (snd a) = snd (snd b))%Z.





(* a host with these values, and no other call answered *)
Definition special_values_host : Host :=
  {| host_sin := fun x => if PrimFloat.is_zero x then x else nan;
     host_cos := fun _ => nan;
     host_asin := fun _ => nan |}.

(** ** Coordinates in degrees *)


(** ** Facts on arrays *)

Lemma get_nat {A : Type} (a : list A) (i : nat) :
  get a (Z.of_nat i) = nth_error a i.
Proof.
  unfold get.
  destruct (Z.ltb_spec (Z.of_nat i) 0); [lia|].
  now rewrite Nat2Z.id.
Qed.

Lemma get_Some_range {A : Type} (a : list A) (i : Z) (v : A) :
  get a i = Some v -> (0 <= i < length_Z a)%Z.
Proof.
  unfold get, length_Z.
  destruct (Z.ltb_spec i 0); [discriminate|].
  intros E.
  assert (Z.to_nat i < length a)%nat by (apply nth_error_Some; congruence).
  lia.
Qed.

Lemma get_in_range {A : Type} (a : list A) (i : Z) :
  (0 <= i < length_Z a)%Z -> exists v, get a i = Some v.
Proof.
  unfold get, length_Z. intros H.
  destruct (Z.ltb_spec i 0); [lia|].
  destruct (nth_error a (Z.to_nat i)) eqn:E; [eauto|].
  apply nth_error_None in E. lia.
Qed.

Lemma mapi_from_length {A B : Type} (f : A -> Z -> B) (a : list A) (s : Z) :
  length (mapi_from f s a) = length a.
Proof.
  revert s. induction a as [|v r IH]; intros s; simpl; [reflexivity|].
  now rewrite IH.
Qed.

Lemma mapi_from_nth {A B : Type} (f : A -> Z -> B) (a : list A) (s : Z) (i : nat) :
  nth_error (mapi_from f s a) i =
  option_map (fun v => f v (s + Z.of_nat i)%Z) (nth_error a i).
Proof.
  revert s i. induction a as [|v r IH]; intros s i.
  - now destruct i.
  - destruct i as [|i]; simpl.
    + now rewrite Z.add_0_r.
    + rewrite IH. destruct (nth_error r i); simpl; [|reflexivity].
      do 2 f_equal. lia.
Qed.

(** ** Facts on parseGPXToSeries that hold for every Number *)

Section Structure.

Context {num : Type} {N : Number num}.

Lemma collect_eq (trks : list (trk num)) :
  forall pts idx,
    collect trks pts idx =
    (pts ++ map readPoint (concat trks), idx ++ ends_from (length_Z pts) trks).
Proof.
  induction trks as [|t rest IH]; intros pts0 idx; simpl.
  - now rewrite !app_nil_r.
  - rewrite IH. f_equal.
    + now rewrite map_app, app_assoc.
    + rewrite <- app_assoc. simpl. unfold length_Z.
      rewrite length_app, length_map, Nat2Z.inj_add. reflexivity.
Qed.

Lemma ends_from_length (trks : list (trk num)) (n : Z) :
  length (ends_from n trks) = length trks.
Proof.
  revert n. induction trks as [|t rest IH]; intros n; simpl; [reflexivity|].
  now rewrite IH.
Qed.

Lemma accumulate_length (rest : list (point num)) :
  forall prev d e,
    length (fst (accumulate prev d e rest)) = length rest /\
    length (snd (accumulate prev d e rest)) = length rest.
Proof.
  induction rest as [|p rest IH]; intros prev d e; simpl; [auto|].
  match goal with |- context [accumulate ?a ?b ?c rest] =>
    specialize (IH a b c); destruct (accumulate a b c rest) as [ds es] end.
  simpl in *. lia.
Qed.

Lemma build_length (pts : list (point num)) :
  length (fst (build pts)) = Nat.max 1 (length pts) /\
  length (snd (build pts)) = Nat.max 1 (length pts).
Proof.
  destruct pts as [|p0 rest]; simpl; [auto|].
  pose proof (accumulate_length rest p0 lit_0 (nmul (ele p0) lit_3_28084)) as H.
  destruct (accumulate p0 lit_0 (nmul (ele p0) lit_3_28084) rest) as [ds es].
  simpl in *. lia.
Qed.

(* What [parseGPXToSeries] returns, in one equation. *)
Lemma parseGPXToSeries_eq (trks : list (trk num)) :
  trks <> [] ->
  let pts := map readPoint (concat trks) in
  let stageEndIdx := ends_from 0 trks in
  parseGPXToSeries trks =
  Return {| pts := pts;
            distMi := fst (build pts);
            elevFt := snd (build pts);
            totalMi := get (fst (build pts)) (length_Z (fst (build pts)) - 1);
            stageScatter := stages stageEndIdx (fst (build pts)) (snd (build pts)) |}.
Proof.
  intros Hne. unfold parseGPXToSeries.
  destruct trks as [|t rest]; [congruence|].
  cbn [length Nat.eqb].
  rewrite collect_eq. cbn [app length_Z length Z.of_nat].
  destruct (build (map readPoint (concat (t :: rest)))) as [ds es].
  reflexivity.
Qed.

End Structure.

(** ** Series construction and the three lengths *)

Section EmptySegments.

Context {num : Type} {N : Number num}.

(* segments that hold no point end at the index -1, which the filter of the
   stage markers drops *)
Lemma ends_from_no_point (trks : list (trk num)) (n : Z) :
  concat trks = [] ->
  filter (fun idx => (0 <? idx)%Z) (ends_from n trks) =
  filter (fun idx => (0 <? idx)%Z) (repeat (n - 1)%Z (length trks)).
Proof.
  revert n. induction trks as [|t rest IH]; intros n H; [reflexivity|].
  cbn [concat] in H. apply app_eq_nil in H. destruct H as [-> H].
  cbn [ends_from length repeat length_Z Z.of_nat].
  replace (n + 0)%Z with n by lia. cbn [filter].
  now rewrite (IH n H).
Qed.

Lemma no_long_segment (max_args : nat) (trks : list (trk num)) :
  concat trks = [] ->
  existsb (fun t : trk num => (max_args <? length t)%nat) trks = false.
Proof.
  induction trks as [|t rest IH]; intros H; [reflexivity|].
  cbn [concat] in H. apply app_eq_nil in H. destruct H as [-> H].
  cbn [existsb length]. now rewrite (IH H).
Qed.

End EmptySegments.

(** C4 (as the code has it).  With the limit [max_args] the engine puts on
    the arguments of a call.  Construction throws when the document has no
    [trk] element, and when a segment holds more points than [max_args].
    It does not throw on segments that hold no point: it returns a Series
    with no point, [distMi = [0]] and one elevation.  Every Series it returns
    has [distMi.length = elevFt.length = max 1 pts.length], so the three
    lengths agree as soon as there is one point. *)
Theorem parse_lengths :
  forall (num : Type) (N : Number num) (max_args : nat),
    parseGPXToSeries_on max_args (@nil (trk num))
    = Throw (Series num) "No <trk> in GPX" /\
    (forall (trks : list (trk num)) (t : trk num),
        In t trks -> (max_args < length t)%nat ->
        parseGPXToSeries_on max_args trks = Throw (Series num) "RangeError") /\
    (forall trks : list (trk num),
        trks <> [] -> concat trks = [] ->
        parseGPXToSeries_on max_args trks =
        Return {| pts := [];
                  distMi := [lit_0];
                  elevFt := [nmul lit_0 lit_3_28084];
                  totalMi := Some lit_0;
                  stageScatter := [] |}) /\
    (forall (trks : list (trk num)) (s : Series num),
        parseGPXToSeries_on max_args trks = Return s ->
        trks <> [] /\
        (forall t, In t trks -> (length t <= max_args)%nat) /\
        pts s = map readPoint (concat trks) /\
        length (distMi s) = Nat.max 1 (length (pts s)) /\
        length (elevFt s) = Nat.max 1 (length (pts s)) /\
        (pts s <> [] ->
         length (elevFt s) = length (pts s) /\
         length (pts s) = length (distMi s))).
Proof.
  intros num N max_args. split; [reflexivity|]. split; [|split].
  - intros trks t Hin Hlong. unfold parseGPXToSeries_on.
    destruct trks as [|t0 rest]; [destruct Hin|]. cbn [length Nat.eqb].
    assert (E : existsb (fun t : trk num => (max_args <? length t)%nat) (t0 :: rest)
                = true).
    { apply existsb_exists. exists t. split; [exact Hin|]. now apply Nat.ltb_lt. }
    now rewrite E.
  - intros trks Hne Hnone. unfold parseGPXToSeries_on.
    destruct trks as [|t0 rest]; [congruence|]. cbn [length Nat.eqb].
    rewrite (no_long_segment max_args (t0 :: rest) Hnone).
    rewrite parseGPXToSeries_eq by discriminate.
    rewrite Hnone. cbn [map build fst snd]. f_equal.
    unfold stages, mapi. rewrite (ends_from_no_point (t0 :: rest) 0 Hnone).
    f_equal.
    change (0 - 1)%Z with (-1)%Z.
    induction (length (t0 :: rest)) as [|n IH]; [reflexivity|exact IH].
  - intros trks s Hs. unfold parseGPXToSeries_on in Hs.
    destruct trks as [|t0 rest]; [discriminate|]. cbn [length Nat.eqb] in Hs.
    destruct (existsb (fun t : trk num => (max_args <? length t)%nat) (t0 :: rest))
      eqn:E; [discriminate|].
    rewrite parseGPXToSeries_eq in Hs by discriminate. cbv zeta in Hs.
    split; [discriminate|]. split.
    { intros t Hin. destruct (Nat.ltb_spec max_args (length t)) as [Hlt | Hge];
        [|exact Hge].
      exfalso. apply Bool.not_true_iff_false in E. apply E.
      apply existsb_exists. exists t. split; [exact Hin|]. now apply Nat.ltb_lt. }
    set (ps := map readPoint (concat (t0 :: rest))) in *.
    pose proof (build_length ps) as [Hd He]. clearbody ps.
    injection Hs as <-. cbn [pts distMi elevFt].
    repeat split; try assumption.
    + rewrite He. destruct ps; [congruence|]. simpl. lia.
    + rewrite Hd. destruct ps; [congruence|]. simpl. lia.
Qed.

(** C4, the claim as stated fails: a document with one [trk] that holds no
    [trkpt] builds a Series, with no point, [distMi = [0]] and one
    elevation. *)
Lemma parse_empty_segment_succeeds :
  exists s : Series xreal,
    parseGPXToSeries [[]] = Return s /\
    pts s = [] /\
    distMi s = [XR 0] /\
    length (elevFt s) = 1%nat /\
    length (elevFt s) <> length (pts s).
Proof.
  eexists. split; [reflexivity|]. cbn. repeat split; discriminate.
Qed.

(** ** Stage markers *)

Section Stages.

Context {num : Type} {N : Number num}.

Lemma ends_from_lower (trks : list (trk num)) (n : Z) :
  Forall (fun idx => (n - 1 <= idx)%Z) (ends_from n trks).
Proof.
  revert n. induction trks as [|t rest IH]; intros n; simpl; constructor.
  - unfold length_Z. lia.
  - eapply Forall_impl; [|apply IH]. unfold length_Z. simpl. lia.
Qed.

Lemma filter_all {A : Type} (f : A -> bool) (l : list A) :
  Forall (fun v => f v = true) l -> filter f l = l.
Proof.
  induction 1 as [|v l Hv _ IH]; simpl; [reflexivity|].
  now rewrite Hv, IH.
Qed.

Lemma In_mapi_from {A B : Type} (f : A -> Z -> B) (a : list A) (s : Z) (m : B) :
  In m (mapi_from f s a) ->
  exists v i, (s <= i < s + length_Z a)%Z /\ m = f v i.
Proof.
  revert s. induction a as [|v r IH]; intros s; simpl; [tauto|].
  unfold length_Z in *. intros [E | H].
  - exists v, s. split; [simpl; lia|now symmetry].
  - destruct (IH _ H) as (w & i & Hi & E).
    exists w, i. split; [simpl length; lia|assumption].
Qed.

(* A first segment of one point ends at index 0: that index is dropped by
   the filter, the kept ones are numbered from 0, and none reaches
   [stageEndIdx.length - 1]. *)
Lemma first_end_0_no_final (p : trkpt num) (rest : list (trk num)) :
  match parseGPXToSeries ([p] :: rest) with
  | Throw _ _ => False
  | Return s => forall m, In m (stageScatter s) -> _isFinal m = false
  end.
Proof.
  rewrite parseGPXToSeries_eq by discriminate.
  cbn [stageScatter]. intros m Hm.
  unfold stages, mapi in Hm.
  apply In_mapi_from in Hm. destruct Hm as (v & i & Hi & ->).
  cbn [_isFinal]. apply Z.eqb_neq.
  cbn [ends_from] in *. change (0 + length_Z [p] - 1)%Z with 0%Z in *.
  cbn [filter] in Hi. change (0 <? 0)%Z with false in Hi. cbv iota in Hi.
  assert (length_Z (filter (fun idx => (0 <? idx)%Z)
                      (ends_from (0 + length_Z [p]) rest))
          <= length_Z (ends_from (0 + length_Z [p]) rest))%Z
    by (unfold length_Z; apply inj_le, filter_length_le).
  unfold length_Z in *. simpl length in *. lia.
Qed.

(* When the first segment has two points or more, no index is dropped and
   exactly the last marker is final. *)
Lemma stages_unfiltered (p q : trkpt num) (t : trk num) (rest : list (trk num)) :
  match parseGPXToSeries ((p :: q :: t) :: rest) with
  | Throw _ _ => False
  | Return s =>
      map (@_isFinal num) (stageScatter s) = repeat false (length rest) ++ [true]
  end.
Proof.
  rewrite parseGPXToSeries_eq by discriminate.
  cbn [stageScatter]. unfold stages, mapi.
  set (idxs := ends_from 0 ((p :: q :: t) :: rest)).
  assert (Hall : filter (fun idx => (0 <? idx)%Z) idxs = idxs).
  { apply filter_all. subst idxs. cbn [ends_from]. constructor.
    - apply Z.ltb_lt. unfold length_Z. simpl length. lia.
    - eapply Forall_impl; [|apply ends_from_lower].
      intros idx H. apply Z.ltb_lt. unfold length_Z in *. simpl length in *. lia. }
  rewrite Hall.
  assert (Hlen : length idxs = S (length rest))
    by (subst idxs; rewrite ends_from_length; reflexivity).
  apply nth_error_ext. intros i.
  rewrite nth_error_map, mapi_from_nth.
  unfold length_Z. rewrite Hlen.
  destruct (Nat.lt_ge_cases i (length rest)) as [Hi | Hi].
  - rewrite nth_error_app1 by (rewrite repeat_length; exact Hi).
    rewrite nth_error_repeat by exact Hi.
    destruct (nth_error idxs i) eqn:E.
    + cbn [option_map _isFinal]. f_equal. apply Z.eqb_neq. lia.
    + apply nth_error_None in E. lia.
  - rewrite nth_error_app2 by (rewrite repeat_length; exact Hi).
    rewrite repeat_length.
    destruct (Nat.eq_dec i (length rest)) as [-> | Hne].
    + rewrite Nat.sub_diag. cbn [nth_error].
      destruct (nth_error idxs (length rest)) eqn:E.
      * cbn [option_map _isFinal]. f_equal. apply Z.eqb_eq. lia.
      * apply nth_error_None in E. lia.
    + assert (E : nth_error idxs i = None) by (apply nth_error_None; lia).
      rewrite E. cbn [option_map].
      destruct (i - length rest)%nat as [|k] eqn:Ek; [lia|].
      now destruct k.
Qed.

End Stages.

(** C2 (the code at the failing input).  A first segment of one point and a
    second of two: the only marker emitted, the one of the last segment, is
    not final. *)
Theorem stage_final_lost :
  forall (num : Type) (N : Number num) (p q r : trkpt num),
    match parseGPXToSeries [[p]; [q; r]] with
    | Throw _ _ => False
    | Return s =>
        stageScatter s =
        [ {| x := get (distMi s) 2; y := get (elevFt s) 2; _isFinal := false |} ]
    end.
Proof.
  intros num N p q r.
  rewrite parseGPXToSeries_eq by discriminate.
  reflexivity.
Qed.

(** C8 (as the code has it).  Segments of 5, 4 and 3 points: three markers,
    at the flat indices 4, 8 and 11, the third one final. *)
Theorem scenario_B_markers :
  forall (num : Type) (N : Number num)
         (p0 p1 p2 p3 p4 p5 p6 p7 p8 p9 p10 p11 : trkpt num),
    match parseGPXToSeries [[p0; p1; p2; p3; p4]; [p5; p6; p7; p8]; [p9; p10; p11]] with
    | Throw _ _ => False
    | Return s =>
        length (pts s) = 12%nat /\
        stageScatter s =
        [ {| x := get (distMi s) 4; y := get (elevFt s) 4; _isFinal := false |};
          {| x := get (distMi s) 8; y := get (elevFt s) 8; _isFinal := false |};
          {| x := get (distMi s) 11; y := get (elevFt s) 11; _isFinal := true |} ]
    end.
Proof.
  intros.
  rewrite parseGPXToSeries_eq by discriminate.
  split; reflexivity.
Qed.

(** C8, the claim as stated fails: on a track of 5, 4 and 3 points the code
    does not emit exactly two markers. *)
Lemma scenario_B_not_two_markers :
  ~ (exists s : Series xreal,
       parseGPXToSeries scenario_B = Return s /\
       length (stageScatter s) = 2%nat).
Proof.
  intros (s & Hs & Hlen).
  unfold scenario_B in Hs.
  rewrite parseGPXToSeries_eq in Hs by discriminate.
  apply (f_equal (fun r => match r with
                           | Return s' => length (stageScatter s')
                           | Throw _ _ => 0%nat
                           end)) in Hs.
  cbv beta iota in Hs. cbn [stageScatter] in Hs.
  unfold stages, mapi in Hs. rewrite mapi_from_length, Hlen in Hs.
  vm_compute in Hs. discriminate.
Qed.

(** ** The elevation series *)

Section Elevation.

Context {num : Type} {N : Number num}.

Lemma accumulate_elev (rest : list (point num)) :
  forall prev d e k p,
    nth_error rest k = Some p ->
    exists ePrev,
      nth_error (e :: snd (accumulate prev d e rest)) k = Some ePrev /\
      nth_error (snd (accumulate prev d e rest)) k = Some (elevation_at p ePrev).
Proof.
  induction rest as [|q rest IH]; intros prev d e k p Hk.
  - destruct k; discriminate.
  - cbn [accumulate].
    match goal with |- context [accumulate ?a ?b ?c rest] =>
      specialize (IH a b c); destruct (accumulate a b c rest) as [ds es] end.
    cbn [snd] in *.
    destruct k as [|k]; cbn [nth_error] in *.
    + injection Hk as ->. exists e. split; reflexivity.
    + destruct (IH k p Hk) as (ePrev & H1 & H2).
      exists ePrev. split; assumption.
Qed.

Lemma build_elev_0 (p0 : point num) (rest : list (point num)) :
  nth_error (snd (build (p0 :: rest))) 0 = Some (nmul (ele p0) lit_3_28084).
Proof.
  cbn [build].
  destruct (accumulate p0 lit_0 (nmul (ele p0) lit_3_28084) rest) as [ds es].
  reflexivity.
Qed.

Lemma build_elev_step (pts : list (point num)) (k : nat) (p : point num) :
  nth_error pts (S k) = Some p ->
  exists ePrev,
    nth_error (snd (build pts)) k = Some ePrev /\
    nth_error (snd (build pts)) (S k) = Some (elevation_at p ePrev).
Proof.
  destruct pts as [|p0 rest]; [discriminate|].
  cbn [nth_error build]. intros Hk.
  pose proof (accumulate_elev rest p0 lit_0 (nmul (ele p0) lit_3_28084) k Hk) as H.
  destruct (accumulate p0 lit_0 (nmul (ele p0) lit_3_28084) rest) as [ds es].
  exact H.
Qed.

(* a finite reading is converted as it is, at every index *)
Lemma build_elev_finite (pts : list (point num)) (k : nat) (p : point num) :
  nth_error pts k = Some p ->
  isFinite (ele p) = true ->
  nth_error (snd (build pts)) k = Some (nmul (ele p) lit_3_28084).
Proof.
  intros Hk Hfin. destruct k as [|k].
  - destruct pts as [|p0 rest]; [discriminate|].
    injection Hk as ->. apply build_elev_0.
  - destruct (build_elev_step pts k Hk) as (ePrev & _ & H).
    rewrite H. unfold elevation_at. now rewrite Hfin.
Qed.

End Elevation.

(** C7 (as the code has it).  A point without an [ele] element is kept; its
    reading is the text '0', so its elevation is [0 * 3.28084] at every
    index, whatever the elevation before it. *)
Theorem missing_ele_is_zero :
  forall (num : Type) (N : Number num) (trks : list (trk num)) (s : Series num)
         (i : nat) (pt : trkpt num),
    isFinite lit_0 = true ->
    parseGPXToSeries trks = Return s ->
    nth_error (concat trks) i = Some pt ->
    ele_elem pt = None ->
    nth_error (pts s) i = Some (readPoint pt) /\
    ele (readPoint pt) = lit_0 /\
    nth_error (elevFt s) i = Some (nmul lit_0 lit_3_28084).
Proof.
  intros num N trks s i pt H0 Hs Hi Hele.
  assert (Hne : trks <> []) by (intros ->; destruct i; discriminate).
  rewrite (parseGPXToSeries_eq Hne) in Hs. injection Hs as <-.
  cbn [pts elevFt].
  assert (Hp : nth_error (map readPoint (concat trks)) i = Some (readPoint pt))
    by (rewrite nth_error_map, Hi; reflexivity).
  assert (He : ele (readPoint pt) = lit_0)
    by (unfold readPoint; cbn [ele]; now rewrite Hele).
  repeat split; try assumption.
  rewrite <- He. apply build_elev_finite; [assumption|].
  now rewrite He.
Qed.

(* C7 at the readings 100, then no [ele] element. *)
Lemma missing_ele_is_zero_witness :
  exists s : Series xreal,
    parseGPXToSeries track_missing_ele = Return s /\
    nth_error (elevFt s) 1 = Some (XR (0 * (328084 / 100000))).
Proof.
  eexists. split.
  - apply parseGPXToSeries_eq. discriminate.
  - refine (proj2 (proj2 (@missing_ele_is_zero xreal xreal_Number
                            track_missing_ele _ 1%nat (reading None) _ _ _ _)));
      reflexivity.
Defined.

(** C7, the claim as stated fails: the elevation of a point without an
    [ele] element is not the carried-forward elevation of the point before
    it. *)
Lemma missing_ele_not_carried :
  ~ (exists (s : Series xreal) (a : xreal),
       parseGPXToSeries track_missing_ele = Return s /\
       nth_error (elevFt s) 0 = Some a /\
       nth_error (elevFt s) 1 = Some (nmul (ndiv a lit_3_28084) lit_3_28084)).
Proof.
  intros (s & a & Hs & H0 & H1).
  unfold track_missing_ele in Hs.
  rewrite parseGPXToSeries_eq in Hs by discriminate.
  injection Hs as <-. cbn in H0, H1.
  injection H0 as <-. cbn in H1.
  destruct (Req_dec_T (328084 / 100000) 0) as [E | _]; [lra|].
  injection H1 as H1. lra.
Qed.

(** C5 (the code at the failing input).  On doubles, whatever the host's
    [Math] functions: a first point whose reading is [NaN], or an infinity,
    is converted as it is, and [elevFt[0]] is [NaN], or the infinity, not 0. *)
Theorem first_reading_not_repaired :
  forall (h : Host) (la lo : float) (t : trk float) (rest : list (trk float)),
    match parseGPXToSeries (N := float_Number h)
            (({| lat_attr := la; lon_attr := lo; ele_elem := Some nan |} :: t) :: rest)
    with
    | Throw _ _ => False
    | Return s => nth_error (elevFt s) 0 = Some nan
    end /\
    match parseGPXToSeries (N := float_Number h)
            (({| lat_attr := la; lon_attr := lo; ele_elem := Some infinity |} :: t) :: rest)
    with
    | Throw _ _ => False
    | Return s => nth_error (elevFt s) 0 = Some infinity
    end.
Proof.
  intros h la lo t rest. split.
  - rewrite parseGPXToSeries_eq by discriminate.
    cbn [elevFt concat map app]. rewrite build_elev_0. reflexivity.
  - rewrite parseGPXToSeries_eq by discriminate.
    cbn [elevFt concat map app]. rewrite build_elev_0. reflexivity.
Qed.

(** ** Carry-forward of the elevation *)



(** ** Dividing by the factor and multiplying again, in exact arithmetic *)


Lemma reconvert (v : R) :
  nmul (ndiv (XR v) lit_3_28084) lit_3_28084 = XR v.
Proof.
  cbn. destruct (Req_dec_T (328084 / 100000) 0) as [E | _]; [lra|].
  cbn. f_equal. field.
Qed.

(** ** The locator: the loop of kmToIndex *)

Lemma sar1_half (v : Z) : (0 <= v < 2 ^ 31)%Z -> sar1 v = (v / 2)%Z.
Proof.
  intros H. unfold sar1, ToInt32.
  replace ((v + 2 ^ 31) mod 2 ^ 32)%Z with (v + 2 ^ 31)%Z
    by (symmetry; apply Z.mod_small; lia).
  replace (v + 2 ^ 31 - 2 ^ 31)%Z with v by lia.
  rewrite Z.shiftr_div_pow2 by lia. reflexivity.
Qed.

Lemma mid_between (lo hi : Z) :
  (0 <= lo < hi)%Z -> (hi < 2 ^ 30)%Z ->
  (lo <= sar1 (lo + hi) < hi)%Z.
Proof.
  intros H1 H2. rewrite sar1_half by lia.
  split.
  - apply Z.div_le_lower_bound; lia.
  - apply Z.div_lt_upper_bound; lia.
Qed.

Section Locator.

Context {num : Type} {N : Number num}.

Variable distMi : list num.
Variable mi : num.

(* The loop ends within [hi - lo] iterations, between [lo] and [hi],
   whatever the comparisons answer. *)
Lemma search_ends (fuel : nat) :
  forall lo hi,
    (0 <= lo <= hi)%Z -> (hi < 2 ^ 30)%Z -> (hi - lo <= Z.of_nat fuel)%Z ->
    exists r, search fuel distMi mi lo hi = Some r /\ (lo <= r <= hi)%Z.
Proof.
  induction fuel as [|fuel IH]; intros lo hi Hlo Hhi Hfuel.
  - assert (lo = hi) by lia. subst hi. cbn [search].
    rewrite Z.ltb_irrefl. exists lo. split; [reflexivity|lia].
  - cbn [search]. destruct (Z.ltb_spec lo hi) as [Hlt | Hge].
    + pose proof (mid_between (lo := lo) (hi := hi)) as Hm.
      destruct Hm as [Hm1 Hm2]; [lia|lia|].
      destruct (lt_read (get distMi (sar1 (lo + hi))) mi).
      * destruct (IH (sar1 (lo + hi) + 1)%Z hi) as (r & Hr & Hrange); [lia|lia|lia|].
        exists r. split; [exact Hr|lia].
      * destruct (IH lo (sar1 (lo + hi))) as (r & Hr & Hrange); [lia|lia|lia|].
        exists r. split; [exact Hr|lia].
    + exists lo. split; [reflexivity|lia].
Qed.

(* When the test is downward closed, the loop returns the lower bound. *)
Lemma search_lower_bound (fuel : nat) :
  (forall i j, (0 <= i <= j)%Z -> below distMi mi j = true -> below distMi mi i = true) ->
  forall lo hi r,
    (0 <= lo <= hi)%Z -> (hi < 2 ^ 30)%Z ->
    (forall j, (0 <= j < lo)%Z -> below distMi mi j = true) ->
    below distMi mi hi = false ->
    search fuel distMi mi lo hi = Some r ->
    (lo <= r <= hi)%Z /\
    (forall j, (0 <= j < r)%Z -> below distMi mi j = true) /\
    below distMi mi r = false.
Proof.
  intros Hdown.
  induction fuel as [|fuel IH]; intros lo hi r Hlo Hhi Hbelow Htop Hr;
    cbn [search] in Hr; destruct (Z.ltb_spec lo hi) as [Hlt | Hge].
  - discriminate.
  - injection Hr as <-. assert (lo = hi) by lia. subst hi.
    repeat split; try lia; assumption.
  - pose proof (mid_between (lo := lo) (hi := hi)) as Hm.
    destruct Hm as [Hm1 Hm2]; [lia|lia|].
    fold (below distMi mi (sar1 (lo + hi))) in Hr.
    destruct (below distMi mi (sar1 (lo + hi))) eqn:Hmid.
    + destruct (IH (sar1 (lo + hi) + 1)%Z hi r) as (H1 & H2 & H3);
        try assumption; try lia.
      * intros j Hj. apply (Hdown j (sar1 (lo + hi))); [lia|assumption].
      * repeat split; try assumption; lia.
    + destruct (IH lo (sar1 (lo + hi)) r) as (H1 & H2 & H3);
        try assumption; try lia.
      repeat split; try assumption; lia.
  - injection Hr as <-. assert (lo = hi) by lia. subst hi.
    repeat split; try lia; assumption.
Qed.

Lemma kmToIndex_range (fuel : nat) :
  distMi <> [] ->
  (length_Z distMi <= 2 ^ 30)%Z ->
  (length distMi <= fuel)%nat ->
  exists lo,
    search fuel distMi mi 0 (length_Z distMi - 1) = Some lo /\
    (0 <= lo < length_Z distMi)%Z /\
    kmToIndex fuel distMi mi =
    Some (if nearer_or_equal (get distMi (Z.max 0 (lo - 1))) (get distMi lo) mi
          then Z.max 0 (lo - 1) else lo).
Proof.
  intros Hne Hsize Hfuel.
  assert (0 < length_Z distMi)%Z
    by (unfold length_Z; destruct distMi; [congruence|simpl; lia]).
  destruct (search_ends fuel (lo := 0) (hi := length_Z distMi - 1))
    as (lo & Hlo & Hrange); try lia.
  { unfold length_Z in *. lia. }
  exists lo. unfold kmToIndex. rewrite Hlo.
  repeat split; try lia.
Qed.

End Locator.

(** C10.  A Series with one point or more, of at most [2 ^ 30] points (the
    middle is computed with the 32-bit shift [>> 1]); any query, [NaN]
    included; any Number.  The loop ends within [distMi.length] iterations,
    [kmToIndex] returns an index of the Series and [pts[idx]] is a point. *)
Theorem kmToIndex_total :
  forall (num : Type) (N : Number num) (s : Series num) (mi : num) (fuel : nat),
    pts s <> [] ->
    length (distMi s) = length (pts s) ->
    (length_Z (pts s) <= 2 ^ 30)%Z ->
    (length (pts s) <= fuel)%nat ->
    exists (idx : Z) (pt : point num),
      kmToIndex fuel (distMi s) mi = Some idx /\
      (0 <= idx <= length_Z (pts s) - 1)%Z /\
      get (pts s) idx = Some pt /\
      updateFromEvent fuel s mi = Some (idx, pt).
Proof.
  intros num N s mi fuel Hne Hlen Hsize Hfuel.
  assert (Hd : distMi s <> []).
  { intros E. rewrite E in Hlen. destruct (pts s); [congruence|discriminate]. }
  assert (HlenZ : length_Z (distMi s) = length_Z (pts s))
    by (unfold length_Z; now rewrite Hlen).
  destruct (kmToIndex_range (distMi := distMi s) mi (fuel := fuel))
    as (lo & _ & Hlo & Hk); try assumption; try lia.
  set (idx := if nearer_or_equal (get (distMi s) (Z.max 0 (lo - 1)))
                   (get (distMi s) lo) mi
              then Z.max 0 (lo - 1) else lo) in *.
  assert (Hidx : (0 <= idx < length_Z (pts s))%Z).
  { subst idx. destruct (nearer_or_equal _ _ _); lia. }
  destruct (get_in_range (pts s) Hidx) as [pt Hpt].
  exists idx, pt. unfold updateFromEvent. rewrite Hk, Hpt.
  repeat split; try lia; reflexivity.
Qed.

(* C10 at a Series of two points and the query [NaN]. *)
Lemma kmToIndex_total_witness :
  exists (idx : Z) (pt : point xreal),
    updateFromEvent 2 two_point_series XNaN = Some (idx, pt).
Proof.
  destruct (@kmToIndex_total xreal xreal_Number two_point_series XNaN 2%nat)
    as (idx & pt & _ & _ & _ & H).
  - discriminate.
  - reflexivity.
  - vm_compute. discriminate.
  - simpl. lia.
  - exists idx, pt. exact H.
Defined.

(** ** The order of doubles *)

Lemma SFcompare_rank (x y : spec_float) :
  is_number x -> is_number y ->
  exists c, SFcompare x y = Some c /\
    match c with
    | Lt => lex_lt (rank x) (rank y)
    | Eq => rank x = rank y
    | Gt => lex_lt (rank y) (rank x)
    end.
Proof.
  unfold is_number, lex_lt.
  destruct x as [sx|sx| |sx mx ex], y as [sy|sy| |sy my ey]; intros Hx Hy;
    try congruence;
    try (destruct sx; try destruct sy; cbn; eexists; (split; [reflexivity|]); cbn;
         first [reflexivity | lia]).
  destruct sx, sy; cbn [SFcompare rank fst snd];
    change (Pos.compare_cont Eq mx my) with (Pos.compare mx my);
    try (eexists; (split; [reflexivity|]); cbn; lia);
    destruct (Z.compare_spec ex ey);
    try (eexists; (split; [reflexivity|]); cbn; lia);
    destruct (Pos.compare_spec mx my); subst;
    eexists; (split; [reflexivity|]); cbn; first [reflexivity | lia].
Qed.

Lemma SFltb_rank (x y : spec_float) :
  SFltb x y = true <-> is_number x /\ is_number y /\ lex_lt (rank x) (rank y).
Proof.
  unfold SFltb. split.
  - intros H.
    assert (Hx : is_number x) by (intros ->; discriminate).
    assert (Hy : is_number y) by (intros ->; destruct x; discriminate).
    destruct (SFcompare_rank Hx Hy) as (c & E & Hc). rewrite E in H.
    destruct c; try discriminate. tauto.
  - intros (Hx & Hy & Hlt).
    destruct (SFcompare_rank Hx Hy) as (c & E & Hc). rewrite E.
    destruct c; [|reflexivity|]; exfalso; revert Hc Hlt; unfold lex_lt;
      [intros ->|]; lia.
Qed.

Lemma SFleb_rank (x y : spec_float) :
  SFleb x y = true <-> is_number x /\ is_number y /\ lex_le (rank x) (rank y).
Proof.
  unfold SFleb, lex_le. split.
  - intros H.
    assert (Hx : is_number x) by (intros ->; discriminate).
    assert (Hy : is_number y) by (intros ->; destruct x; discriminate).
    destruct (SFcompare_rank Hx Hy) as (c & E & Hc). rewrite E in H.
    destruct c; try discriminate; [rewrite Hc|]; tauto.
  - intros (Hx & Hy & Hle).
    destruct (SFcompare_rank Hx Hy) as (c & E & Hc). rewrite E.
    destruct c; [reflexivity|reflexivity|]; exfalso; revert Hle Hc; unfold lex_lt; lia.
Qed.

Lemma ltb_leb (x y : float) : PrimFloat.ltb x y = true -> PrimFloat.leb x y = true.
Proof.
  rewrite FloatAxioms.ltb_spec, FloatAxioms.leb_spec, SFltb_rank, SFleb_rank.
  unfold lex_le. tauto.
Qed.

Lemma leb_ltb_trans (a b q : float) :
  PrimFloat.leb a b = true -> PrimFloat.ltb b q = true -> PrimFloat.ltb a q = true.
Proof.
  rewrite !FloatAxioms.ltb_spec, FloatAxioms.leb_spec, !SFltb_rank, SFleb_rank.
  unfold lex_le, lex_lt.
  intros (Ha & Hb & H1) (_ & Hq & H2). repeat split; try assumption. lia.
Qed.

Lemma leb_trans (a b c : float) :
  PrimFloat.leb a b = true -> PrimFloat.leb b c = true -> PrimFloat.leb a c = true.
Proof.
  rewrite !FloatAxioms.leb_spec, !SFleb_rank. unfold lex_le, lex_lt.
  intros (Ha & Hb & H1) (_ & Hc & H2). repeat split; try assumption. lia.
Qed.




(** ** Doubles that are not finite *)

Lemma is_finite_false (x : float) :
  PrimFloat.is_finite x = false <->
  (Prim2SF x = S754_nan \/ exists s, Prim2SF x = S754_infinity s).
Proof.
  unfold PrimFloat.is_finite, PrimFloat.is_nan, PrimFloat.is_infinity.
  rewrite !FloatAxioms.eqb_spec, FloatAxioms.abs_spec.
  change (Prim2SF infinity) with (S754_infinity false).
  destruct (Prim2SF x) as [s|s| |s m e]; cbn.
  - split; [discriminate|]. intros [H | [s' H]]; discriminate.
  - split; [eauto|]. intros _. now destruct s.
  - split; [eauto|reflexivity].
  - unfold SFeqb. cbn.
    change (Pos.compare_cont Eq m m) with (Pos.compare m m).
    rewrite Z.compare_refl, Pos.compare_refl.
    destruct s; cbn; (split; [discriminate|]); intros [H | [s' H]]; discriminate.
Qed.

(* a value that is not finite, multiplied or divided by 3.28084, is not
   finite *)
Lemma mul_not_finite (h : Host) (x : float) :
  @isFinite float (float_Number h) x = false ->
  @isFinite float (float_Number h)
    (@nmul float (float_Number h) x (@lit_3_28084 float (float_Number h))) = false.
Proof.
  cbn [isFinite nmul lit_3_28084 float_Number].
  rewrite !is_finite_false, FloatAxioms.mul_spec. unfold SF64mul.
  assert (Ec : exists m e, Prim2SF 0x1.a3f290abb44e5p+1%float = S754_finite false m e)
    by (vm_compute; eauto).
  destruct Ec as (m & e & ->).
  intros [-> | [s ->]]; cbn; eauto.
Qed.

Lemma div_not_finite (h : Host) (x : float) :
  @isFinite float (float_Number h) x = false ->
  @isFinite float (float_Number h)
    (@ndiv float (float_Number h) x (@lit_3_28084 float (float_Number h))) = false.
Proof.
  cbn [isFinite ndiv lit_3_28084 float_Number].
  rewrite !is_finite_false, FloatAxioms.div_spec. unfold SF64div.
  assert (Ec : exists m e, Prim2SF 0x1.a3f290abb44e5p+1%float = S754_finite false m e)
    by (vm_compute; eauto).
  destruct Ec as (m & e & ->).
  intros [-> | [s ->]]; cbn; eauto.
Qed.

(** ** The locator on an ordered Number

    What the locator needs of [<] and [<=] to find the place of the query in
    a non-decreasing array: the laws below, which hold of the doubles and of
    the reals with [NaN]. *)

Section OrderedLocator.

Context {num : Type} {N : Number num}.

Hypothesis le_lt_trans :
  forall a b q : num, nle a b = true -> nlt b q = true -> nlt a q = true.
Hypothesis le_trans :
  forall a b c : num, nle a b = true -> nle b c = true -> nle a c = true.
Hypothesis le_not_lt :
  forall a b : num, nle a b = true -> nlt b a = false.
Hypothesis le_numbers :
  forall a b : num, nle a b = true -> nle a a = true /\ nle b b = true.
Hypothesis not_lt_le :
  forall d q : num, nle d d = true -> nle q q = true -> nlt d q = false -> nle q d = true.

Lemma ordered_pairwise (distMi : list num) :
  non_decreasing distMi ->
  forall n i a b,
    nth_error distMi i = Some a -> nth_error distMi (i + S n)%nat = Some b ->
    nle a b = true.
Proof.
  intros Hadj. induction n as [|n IH]; intros i a b Ha Hb.
  - replace (i + 1)%nat with (S i) in Hb by lia. exact (Hadj i a b Ha Hb).
  - replace (i + S (S n))%nat with (S (i + S n)) in Hb by lia.
    destruct (nth_error distMi (i + S n)) as [w|] eqn:Hw.
    + exact (le_trans _ _ _ (IH i a w Ha Hw) (Hadj (i + S n)%nat w b Hw Hb)).
    + apply nth_error_None in Hw.
      assert (nth_error distMi (S (i + S n)) = None) by (apply nth_error_None; lia).
      congruence.
Qed.

Lemma ordered_get (distMi : list num) :
  non_decreasing distMi ->
  forall i j a b,
    (i < j)%Z -> get distMi i = Some a -> get distMi j = Some b -> nle a b = true.
Proof.
  intros Hadj i j a b Hij Ha Hb.
  pose proof (get_Some_range _ _ Ha). pose proof (get_Some_range _ _ Hb).
  rewrite <- (Z2Nat.id i), get_nat in Ha by lia.
  rewrite <- (Z2Nat.id j), get_nat in Hb by lia.
  apply (@ordered_pairwise distMi Hadj (Z.to_nat j - Z.to_nat i - 1)%nat (Z.to_nat i));
    [assumption|].
  replace (Z.to_nat i + S (Z.to_nat j - Z.to_nat i - 1))%nat with (Z.to_nat j) by lia.
  assumption.
Qed.



End OrderedLocator.




(** ** The locator returns the nearest index, in exact arithmetic *)

Local Open Scope R_scope.

Lemma Rltb_true (a b : R) : Rltb a b = true <-> a < b.
Proof. unfold Rltb. destruct (Rlt_dec a b); split; (easy || lra). Qed.

Lemma Rltb_false (a b : R) : Rltb a b = false <-> b <= a.
Proof. unfold Rltb. destruct (Rlt_dec a b); split; (easy || lra). Qed.

Lemma Rleb_true (a b : R) : Rleb a b = true <-> a <= b.
Proof. unfold Rleb. destruct (Rle_dec a b); split; (easy || lra). Qed.

Lemma Rleb_false (a b : R) : Rleb a b = false <-> b < a.
Proof. unfold Rleb. destruct (Rle_dec a b); split; (easy || lra). Qed.

Lemma nle_XR (a b : xreal) :
  nle a b = true -> exists u v, a = XR u /\ b = XR v /\ u <= v.
Proof.
  destruct a as [|u], b as [|v]; try discriminate.
  cbn. intros H. apply Rleb_true in H. eauto.
Qed.

Lemma get_map {A B : Type} (f : A -> B) (l : list A) (i : Z) :
  get (map f l) i = option_map f (get l i).
Proof.
  unfold get. destruct (i <? 0)%Z; [reflexivity|]. apply nth_error_map.
Qed.

Lemma all_XR (l : list xreal) :
  (forall i a, nth_error l i = Some a -> exists r, a = XR r) ->
  exists rs, l = map XR rs.
Proof.
  induction l as [|a l IH]; intros H.
  - exists []. reflexivity.
  - destruct (H 0%nat a eq_refl) as [r ->].
    destruct IH as [rs ->].
    + intros i b Hb. apply (H (S i) b Hb).
    + exists (r :: rs). reflexivity.
Qed.

Lemma sorted_pairwise (rs : list R) :
  (forall i u v, nth_error rs i = Some u -> nth_error rs (S i) = Some v -> u <= v) ->
  forall n i u v,
    nth_error rs i = Some u -> nth_error rs (i + n)%nat = Some v -> u <= v.
Proof.
  intros Hadj. induction n as [|n IH]; intros i u v Hu Hv.
  - rewrite Nat.add_0_r in Hv. assert (u = v) by congruence. lra.
  - replace (i + S n)%nat with (S (i + n))%nat in Hv by lia.
    destruct (nth_error rs (i + n)%nat) as [w|] eqn:Hw.
    + pose proof (IH i u w Hu Hw). pose proof (Hadj (i + n)%nat w v Hw Hv). lra.
    + apply nth_error_None in Hw.
      assert (nth_error rs (S (i + n))%nat = None) by (apply nth_error_None; lia).
      congruence.
Qed.

Lemma sorted_get (rs : list R) :
  (forall i u v, nth_error rs i = Some u -> nth_error rs (S i) = Some v -> u <= v) ->
  forall i j u v,
    (i <= j)%Z -> get rs i = Some u -> get rs j = Some v -> u <= v.
Proof.
  intros Hadj i j u v Hij Hu Hv.
  pose proof (get_Some_range _ _ Hu). pose proof (get_Some_range _ _ Hv).
  rewrite <- (Z2Nat.id i), get_nat in Hu by lia.
  rewrite <- (Z2Nat.id j), get_nat in Hv by lia.
  apply (@sorted_pairwise rs Hadj (Z.to_nat j - Z.to_nat i)%nat (Z.to_nat i)); [assumption|].
  replace (Z.to_nat i + (Z.to_nat j - Z.to_nat i))%nat with (Z.to_nat j) by lia.
  assumption.
Qed.

Lemma below_map (rs : list R) (q : R) (j : Z) :
  below (map XR rs) (XR q) j =
  match get rs j with
  | Some u => Rltb u q
  | None => false
  end.
Proof.
  unfold below. rewrite get_map. destruct (get rs j); reflexivity.
Qed.

(* On a non-decreasing array of reals whose last value is at least [q], the
   loop returns the smallest index whose value is at least [q]. *)
Lemma search_real (rs : list R) (q total : R) (fuel : nat) :
  (forall i u v, nth_error rs i = Some u -> nth_error rs (S i) = Some v -> u <= v) ->
  (length_Z rs <= 2 ^ 30)%Z ->
  (length rs <= fuel)%nat ->
  get rs (length_Z rs - 1) = Some total ->
  q <= total ->
  exists r d,
    search fuel (map XR rs) (XR q) 0 (length_Z rs - 1) = Some r /\
    get rs r = Some d /\ q <= d /\
    (forall j u, (0 <= j < r)%Z -> get rs j = Some u -> u < q).
Proof.
  intros Hadj Hsize Hfuel Htotal Hq.
  pose proof (get_Some_range _ _ Htotal) as Hlen.
  destruct (search_ends (map XR rs) (XR q) fuel (lo := 0) (hi := length_Z rs - 1))
    as (r & Hr & Hrange); try lia.
  { unfold length_Z in *. lia. }
  destruct (@search_lower_bound _ _ (map XR rs) (XR q) fuel) with
    (lo := 0%Z) (hi := (length_Z rs - 1)%Z) (r := r) as (_ & Hlow & Hup);
    try assumption; try lia.
  - intros i j Hij. rewrite !below_map.
    destruct (get rs j) as [v|] eqn:Hj; [|discriminate].
    pose proof (get_Some_range _ _ Hj).
    destruct (get_in_range rs (i := i)) as [u Hi]; [lia|].
    rewrite Hi. intros Hv. apply Rltb_true in Hv. apply Rltb_true.
    pose proof (@sorted_get rs Hadj i j u v (proj2 Hij) Hi Hj). lra.
  - rewrite below_map, Htotal. apply Rltb_false. exact Hq.
  - destruct (get_in_range rs (i := r)) as [d Hd]; [lia|].
    exists r, d. repeat split; try assumption.
    + rewrite below_map, Hd in Hup. now apply Rltb_false in Hup.
    + intros j u Hj Hu. specialize (Hlow j Hj).
      rewrite below_map, Hu in Hlow. now apply Rltb_true.
Qed.

Lemma gap_XR (q d : R) : gap (XR q) (XR d) = XR (Rabs (d - q)).
Proof. reflexivity. Qed.

(* Where the subtraction is exact, the index chosen among [i1] and [i2] is
   nearest to [q] among all the indexes, and when the two candidates are at
   the same distance from [q], it is [i1]. *)
Lemma kmToIndex_nearest_exact :
  forall (distMi : list xreal) (q total : xreal) (fuel : nat),
    non_decreasing distMi ->
    (length_Z distMi <= 2 ^ 30)%Z ->
    (length distMi <= fuel)%nat ->
    get distMi (length_Z distMi - 1) = Some total ->
    nle lit_0 q = true ->
    nle q total = true ->
    exists (idx : Z) (d : xreal),
      kmToIndex fuel distMi q = Some idx /\
      get distMi idx = Some d /\
      (forall j dj, get distMi j = Some dj -> nle (gap q d) (gap q dj) = true) /\
      (forall i2 d1 d2,
          lower_bound distMi q i2 ->
          get distMi (Z.max 0 (i2 - 1)) = Some d1 ->
          get distMi i2 = Some d2 ->
          gap q d1 = gap q d2 ->
          idx = Z.max 0 (i2 - 1)).
Proof.
  intros distMi q total fuel Hsorted Hsize Hfuel Htotal H0q Hqt.
  destruct (nle_XR _ _ Hqt) as (qr & tr & -> & -> & Hq). clear H0q Hqt.
  pose proof (get_Some_range _ _ Htotal) as Hlen.
  (* every value is a real *)
  destruct (all_XR distMi) as [rs ->].
  { intros i a Ha.
    destruct (nth_error distMi (S i)) as [b|] eqn:Hb.
    - destruct (nle_XR _ _ (Hsorted i a b Ha Hb)) as (u & _ & -> & _). eauto.
    - destruct i as [|i].
      + apply nth_error_None in Hb.
        assert (length_Z distMi - 1 = 0)%Z by (unfold length_Z in *; lia).
        rewrite H in Htotal. change (nth_error distMi 0 = Some (XR tr)) in Htotal.
        rewrite Htotal in Ha. injection Ha as <-. eauto.
      + destruct (nth_error distMi i) as [c|] eqn:Hc.
        * destruct (nle_XR _ _ (Hsorted i c a Hc Ha)) as (_ & v & _ & -> & _). eauto.
        * apply nth_error_None in Hc.
          assert (nth_error distMi (S i) = None) by (apply nth_error_None; lia).
          congruence. }
  assert (Hadj : forall i u v,
             nth_error rs i = Some u -> nth_error rs (S i) = Some v -> u <= v).
  { intros i u v Hu Hv.
    assert (E : nle (XR u) (XR v) = true)
      by (apply (Hsorted i); rewrite nth_error_map; [rewrite Hu|rewrite Hv]; reflexivity).
    now apply Rleb_true in E. }
  assert (HlenZ : length_Z (map XR rs) = length_Z rs)
    by (unfold length_Z; now rewrite length_map).
  rewrite HlenZ in *. rewrite length_map in Hfuel.
  rewrite get_map in Htotal.
  destruct (get rs (length_Z rs - 1)) as [t|] eqn:Ht; [|discriminate].
  injection Htotal as ->.
  destruct (@search_real rs qr tr fuel Hadj Hsize Hfuel Ht Hq)
    as (r & d2 & Hr & Hd2 & Hq2 & Hbelow).
  pose proof (get_Some_range _ _ Hd2) as Hrr.
  destruct (get_in_range rs (i := Z.max 0 (r - 1))) as [d1 Hd1]; [lia|].
  assert (Hk : kmToIndex fuel (map XR rs) (XR qr) =
               Some (if Rleb (Rabs (d1 - qr)) (Rabs (d2 - qr))
                     then Z.max 0 (r - 1) else r)).
  { unfold kmToIndex. rewrite HlenZ, Hr, !get_map, Hd1, Hd2. reflexivity. }
  (* the two candidates bracket the query *)
  assert (Hd1q : (r = 0)%Z \/ d1 < qr).
  { destruct (Z.eq_dec r 0) as [|Hne]; [now left|right].
    apply (Hbelow (Z.max 0 (r - 1))); [lia|assumption]. }
  assert (Hup : forall j u, (r <= j)%Z -> get rs j = Some u -> d2 <= u).
  { intros j u Hj Hu. exact (@sorted_get rs Hadj _ _ _ _ Hj Hd2 Hu). }
  assert (Hdn : forall j u, (j <= Z.max 0 (r - 1))%Z -> get rs j = Some u -> u <= d1).
  { intros j u Hj Hu. exact (@sorted_get rs Hadj _ _ _ _ Hj Hu Hd1). }
  assert (Hsame : (r = 0)%Z -> d1 = d2).
  { intros ->. change (Z.max 0 (0 - 1)) with 0%Z in Hd1. congruence. }
  rewrite Hk.
  destruct (Rleb (Rabs (d1 - qr)) (Rabs (d2 - qr))) eqn:Hcmp.
  - apply Rleb_true in Hcmp.
    exists (Z.max 0 (r - 1)), (XR d1). rewrite get_map, Hd1.
    repeat split.
    + intros j dj Hj. rewrite get_map in Hj.
      destruct (get rs j) as [u|] eqn:Hu; [|discriminate]. injection Hj as <-.
      rewrite !gap_XR. cbn. apply Rleb_true.
      pose proof (get_Some_range _ _ Hu).
      destruct (Z_lt_ge_dec j r) as [Hlt | Hge].
      * pose proof (Hdn j u ltac:(lia) Hu). pose proof (Hbelow j u ltac:(lia) Hu).
        destruct Hd1q as [-> | Hd1q]; [lia|].
        unfold Rabs; repeat destruct Rcase_abs; lra.
      * pose proof (Hup j u ltac:(lia) Hu).
        revert Hcmp. unfold Rabs; repeat destruct Rcase_abs; lra.
    + intros i2 e1 e2 [(e & He & Hqe) Hlt] _ _ _.
      rewrite get_map in He. destruct (get rs i2) as [u|] eqn:Hu; [|discriminate].
      injection He as <-. apply Rleb_true in Hqe.
      pose proof (get_Some_range _ _ Hu).
      enough (i2 = r) by (subst; reflexivity).
      destruct (Z.lt_trichotomy i2 r) as [Hc | [Hc | Hc]]; [|assumption|].
      * pose proof (Hbelow i2 u ltac:(lia) Hu). lra.
      * specialize (Hlt r (XR d2) ltac:(lia)). rewrite get_map, Hd2 in Hlt.
        specialize (Hlt eq_refl). apply Rltb_true in Hlt. lra.
  - apply Rleb_false in Hcmp.
    exists r, (XR d2). rewrite get_map, Hd2.
    assert (Hr0 : (r <> 0)%Z) by (intros E; rewrite (Hsame E) in Hcmp; lra).
    destruct Hd1q as [| Hd1q]; [contradiction|].
    repeat split.
    + intros j dj Hj. rewrite get_map in Hj.
      destruct (get rs j) as [u|] eqn:Hu; [|discriminate]. injection Hj as <-.
      rewrite !gap_XR. cbn. apply Rleb_true.
      pose proof (get_Some_range _ _ Hu).
      destruct (Z_lt_ge_dec j r) as [Hlt | Hge].
      * pose proof (Hdn j u ltac:(lia) Hu).
        revert Hcmp. unfold Rabs; repeat destruct Rcase_abs; lra.
      * pose proof (Hup j u ltac:(lia) Hu).
        unfold Rabs; repeat destruct Rcase_abs; lra.
    + intros i2 e1 e2 [(e & He & Hqe) Hlt] He1 He2 Hgap.
      rewrite get_map in He. destruct (get rs i2) as [u|] eqn:Hu; [|discriminate].
      injection He as <-. apply Rleb_true in Hqe.
      pose proof (get_Some_range _ _ Hu).
      assert (i2 = r).
      { destruct (Z.lt_trichotomy i2 r) as [Hc | [Hc | Hc]]; [|assumption|].
        * pose proof (Hbelow i2 u ltac:(lia) Hu). lra.
        * specialize (Hlt r (XR d2) ltac:(lia)). rewrite get_map, Hd2 in Hlt.
          specialize (Hlt eq_refl). apply Rltb_true in Hlt. lra. }
      subst i2. rewrite get_map, Hd1 in He1. rewrite get_map, Hd2 in He2.
      injection He1 as <-. injection He2 as <-.
      rewrite !gap_XR in Hgap. injection Hgap as Hgap. lra.
Qed.

(* At [0; 1; 3] and the query 2, at the same distance from 1 and from 3: the
   lower index. *)
Example kmToIndex_nearest_exact_tie :
  kmToIndex 3 [XR 0; XR 1; XR 3] (XR 2) = Some 1%Z.
Proof.
  destruct (@kmToIndex_nearest_exact [XR 0; XR 1; XR 3] (XR 2) (XR 3) 3%nat)
    as (idx & d & Hk & _ & _ & Htie).
  - intros [|[|[|i]]] a b Ha Hb; cbn in Ha, Hb; try discriminate;
      injection Ha as <-; injection Hb as <-; apply Rleb_true; lra.
  - vm_compute. discriminate.
  - simpl. lia.
  - reflexivity.
  - apply Rleb_true. lra.
  - apply Rleb_true. lra.
  - rewrite Hk. f_equal.
    apply (Htie 2%Z (XR 1) (XR 3)); try reflexivity.
    + split.
      * exists (XR 3). split; [reflexivity|]. apply Rleb_true. lra.
      * intros j dj Hj Hd.
        assert (Hc : j = 0%Z \/ j = 1%Z) by lia.
        destruct Hc as [-> | ->]; cbn in Hd; injection Hd as <-;
          apply Rltb_true; lra.
    + rewrite !gap_XR. f_equal.
      unfold Rabs; repeat destruct Rcase_abs; lra.
Defined.

(** ** The haversine formula, in exact arithmetic *)

(* It lies in [0, 1], for all coordinates: the square root and the arc sine
   are taken inside their domains. *)
Lemma hav_A_range (la1 lo1 la2 lo2 : R) : 0 <= hav_A la1 lo1 la2 lo2 <= 1.
Proof.
  unfold hav_A.
  set (ra := la1 * PI / 180). set (rb := la2 * PI / 180).
  set (y := (lo2 - lo1) * PI / 180 / 2).
  replace ((la2 - la1) * PI / 180 / 2) with ((rb - ra) / 2) by (unfold ra, rb; field).
  pose proof (cos_2a_sin ((rb - ra) / 2)) as H2.
  replace (2 * ((rb - ra) / 2)) with (rb - ra) in H2 by field.
  rewrite cos_minus in H2.
  pose proof (sin2_cos2 ra) as Ha. pose proof (sin2_cos2 rb) as Hb.
  pose proof (sin2_cos2 y) as Hy.
  pose proof (Rle_0_sqr (sin y)) as Hs0. pose proof (Rle_0_sqr (cos y)) as Hc0.
  unfold Rsqr in *.
  set (x := sin ((rb - ra) / 2)) in *.
  set (ca := cos ra) in *. set (sa := sin ra) in *.
  set (cb := cos rb) in *. set (sb := sin rb) in *.
  set (s := sin y * sin y) in *. set (c := cos y * cos y) in *.
  assert (Hs1 : 0 <= s <= 1) by lra.
  assert (Hs2 : 0 <= 1 - s) by lra.
  pose proof (Rmult_le_pos _ _ (proj1 Hs1) (Rle_0_sqr (ca + cb))) as P1.
  pose proof (Rmult_le_pos _ _ (proj1 Hs1) (Rle_0_sqr (ca - cb))) as P2.
  pose proof (Rmult_le_pos _ _ Hs2 (Rle_0_sqr (ca + cb))) as P3.
  pose proof (Rmult_le_pos _ _ Hs2 (Rle_0_sqr (ca - cb))) as P4.
  pose proof (Rle_0_sqr (sa - sb)) as P5. pose proof (Rle_0_sqr (sa + sb)) as P6.
  unfold Rsqr in *.
  split; nra.
Qed.


Lemma sqrt_unit (u : R) : 0 <= u <= 1 -> 0 <= sqrt u <= 1.
Proof.
  intros Hu. split; [apply sqrt_pos|].
  rewrite <- sqrt_1. apply sqrt_le_1_alt. lra.
Qed.


Lemma toRad_XR (v : R) : toRad (XR v) = XR (v * PI / 180).
Proof.
  unfold toRad. cbn. destruct (Req_dec_T 180 0) as [E | _]; [lra|reflexivity].
Qed.

Lemma half_XR (v : R) : ndiv (XR v) lit_2 = XR (v / 2).
Proof.
  cbn. destruct (Req_dec_T 2 0) as [E | _]; [lra|reflexivity].
Qed.

(* With real coordinates, haversineMiles is the formula over the reals. *)
Lemma haversineMiles_XR (la1 lo1 la2 lo2 : R) (e1 e2 : xreal) :
  haversineMiles {| lat := XR la1; lon := XR lo1; ele := e1 |}
                 {| lat := XR la2; lon := XR lo2; ele := e2 |}
  = XR (hav_miles la1 lo1 la2 lo2).
Proof.
  unfold haversineMiles. cbn [lat lon].
  change (nsub (XR la2) (XR la1)) with (XR (la2 - la1)).
  change (nsub (XR lo2) (XR lo1)) with (XR (lo2 - lo1)).
  rewrite !toRad_XR, !half_XR.
  cbn [Math_sin Math_cos sqr nmul nadd xreal_Number xlift1 xlift2].
  fold (hav_A la1 lo1 la2 lo2).
  pose proof (hav_A_range la1 lo1 la2 lo2) as HA.
  pose proof (sqrt_unit HA) as HS.
  cbn [Math_sqrt Math_asin xreal_Number xsqrt xasin lit_2 lit_6371 lit_0_621371].
  destruct (Rlt_dec (hav_A la1 lo1 la2 lo2) 0) as [E | _]; [lra|].
  cbn [xasin].
  destruct (Rlt_dec (sqrt (hav_A la1 lo1 la2 lo2)) (-1)) as [E | _]; [lra|].
  destruct (Rlt_dec 1 (sqrt (hav_A la1 lo1 la2 lo2))) as [E | _]; [lra|].
  reflexivity.
Qed.

(** ** The distance series is non-decreasing *)




Section Distances.

Context {num : Type} {N : Number num}.



End Distances.




(** ** Scenario A *)

Lemma PI_6_digits : 3.141592 < PI < 3.141593.
Proof.
  pose proof (PI_2_3_7_ineq 4) as H.
  unfold sum_f_R0, tg_alt, PI_2_3_7_tg, Ratan_seq in H.
  simpl in H. lra.
Qed.

Lemma hav_miles_scenario_A :
  hav_miles 0 0 0 1 = 2 * 6371 * (PI / 360) * (621371 / 1000000).
Proof.
  unfold hav_miles, hav_A.
  pose proof PI_6_digits as Hpi.
  replace ((0 - 0) * PI / 180 / 2) with 0 by field.
  replace (0 * PI / 180) with 0 by field.
  replace ((1 - 0) * PI / 180 / 2) with (PI / 360) by field.
  rewrite sin_0, cos_0, Rsqr_0.
  replace (0 + 1 * 1 * Rsqr (sin (PI / 360))) with (Rsqr (sin (PI / 360))) by ring.
  rewrite sqrt_Rsqr by (apply sin_ge_0; lra).
  rewrite asin_sin by lra.
  reflexivity.
Qed.

Lemma distMi_scenario_A :
  exists s : Series xreal,
    parseGPXToSeries scenario_A = Return s /\
    distMi s = [XR 0; XR (0 + hav_miles 0 0 0 1)] /\
    totalMi s = Some (XR (0 + hav_miles 0 0 0 1)).
Proof.
  eexists. split; [apply parseGPXToSeries_eq; discriminate|].
  cbn [distMi totalMi scenario_A concat map app build accumulate].
  change (readPoint (equator_point 0))
    with {| lat := XR 0; lon := XR 0; ele := XR 0 |}.
  change (readPoint (equator_point 1))
    with {| lat := XR 0; lon := XR 1; ele := XR 0 |}.
  rewrite haversineMiles_XR.
  split; reflexivity.
Qed.

(** C9 (as the code has it).  Two points on the equator, one degree of
    longitude apart: the distance is [2 * 6371 * (PI / 360) * 0.621371] miles,
    between 69.0932 and 69.0934, and it is the second and last value of
    [distMi]. *)
Theorem scenario_A_distance :
  exists (s : Series xreal) (v : R),
    parseGPXToSeries scenario_A = Return s /\
    haversineMiles (readPoint (equator_point 0)) (readPoint (equator_point 1)) = XR v /\
    distMi s = [XR 0; XR (0 + v)] /\
    v = 2 * 6371 * (PI / 360) * (621371 / 1000000) /\
    69.0932 < v < 69.0934.
Proof.
  destruct distMi_scenario_A as (s & Hs & Hd & _).
  exists s, (hav_miles 0 0 0 1).
  pose proof PI_6_digits as Hpi.
  repeat split; try assumption.
  - apply (haversineMiles_XR 0 0 0 1).
  - apply hav_miles_scenario_A.
  - rewrite hav_miles_scenario_A. lra.
  - rewrite hav_miles_scenario_A. lra.
Qed.

(** C9, the claim as stated fails: the distance does not round to 69.17. *)
Lemma scenario_A_not_69_17 :
  ~ (exists v : R,
       haversineMiles (readPoint (equator_point 0)) (readPoint (equator_point 1)) = XR v /\
       Rabs (v - 69.17) <= 0.005).
Proof.
  intros (v & Hv & Hclose).
  change (readPoint (equator_point 0))
    with {| lat := XR 0; lon := XR 0; ele := XR 0 |} in Hv.
  change (readPoint (equator_point 1))
    with {| lat := XR 0; lon := XR 1; ele := XR 0 |} in Hv.
  rewrite haversineMiles_XR in Hv. injection Hv as <-.
  rewrite hav_miles_scenario_A in Hclose.
  pose proof PI_6_digits as Hpi.
  revert Hclose. unfold Rabs. destruct Rcase_abs; lra.
Qed.


(** ** The same runs on doubles

    The elevation series and the markers on IEEE 754 doubles, for every host:
    the readings 100, then a text that is no number, then no [ele] element,
    in two segments of one and two points. *)

Example elevFt_on_doubles :
  forall h : Host,
    match parseGPXToSeries (N := float_Number h)
            [[reading64 (Some 100%float)];
             [reading64 (Some nan); reading64 None]]
    with
    | Throw _ _ => False
    | Return s =>
        elevFt s = [0x1.4815810624dd3p+8%float; 0x1.4815810624dd3p+8%float; 0%float] /\
        map (@_isFinal float) (stageScatter s) = [false]
    end.
Proof.
  intros h. rewrite parseGPXToSeries_eq by discriminate.
  split; reflexivity.
Qed.

Example kmToIndex_on_doubles :
  forall h : Host,
    kmToIndex (N := float_Number h) 3 [0; 1; 3]%float 2%float = Some 1%Z /\
    kmToIndex (N := float_Number h) 3 [0; 1; 3]%float 2.5%float = Some 2%Z /\
    kmToIndex (N := float_Number h) 3 [0; 1; 3]%float nan = Some 0%Z /\
    kmToIndex (N := float_Number h) 3 [0; 1; 3]%float infinity = Some 1%Z.
Proof.
  intros h. repeat split; reflexivity.
Qed.

Lemma all_from_spec (f : Z -> bool) (lo : Z) (n : positive) :
  all_from f lo n = true ->
  forall z, (lo <= z < lo + Zpos n)%Z -> f z = true.
Proof.
  unfold all_from.
  set (step := fun st : bool * Z => (fst st && f (snd st), (snd st + 1)%Z)).
  assert (H : snd (Pos.iter step (true, lo) n) = (lo + Zpos n)%Z /\
              (fst (Pos.iter step (true, lo) n) = true ->
               forall z, (lo <= z < lo + Zpos n)%Z -> f z = true)).
  { induction n as [|n [IH1 IH2]] using Pos.peano_ind.
    - cbn. split; [lia|]. intros Hf z Hz. assert (z = lo) by lia. subst.
      exact Hf.
    - rewrite Pos.iter_succ. unfold step at 1. cbn [fst snd].
      rewrite IH1. split; [lia|].
      intros Hf z Hz. apply andb_true_iff in Hf. destruct Hf as [Hf1 Hf2].
      rewrite IH1 in Hf2.
      destruct (Z.eq_dec z (lo + Zpos n)) as [-> | Hne]; [exact Hf2|].
      apply IH2; [exact Hf1|lia]. }
  exact (proj2 H).
Qed.

(* Every reading from -500.00 to 9000.00, in steps of 0.01. *)
Lemma reconverts_centimetres (n : Z) :
  (-50000 <= n <= 900000)%Z -> reconverts (centimetres n) = true.
Proof.
  intros Hn.
  apply (@all_from_spec (fun z => reconverts (centimetres z)) (-50000)%Z 950001%positive); [|lia].
  vm_compute. reflexivity.
Qed.

(* The carry-forward on doubles: after such a reading, a reading that is no
   number gets an elevation equal ([==]) to the one before it. *)
Lemma carry_forward_on_doubles :
  forall (h : Host) (n : Z),
    (-50000 <= n <= 900000)%Z ->
    match parseGPXToSeries (N := float_Number h)
            [[reading64 (Some (centimetres n)); reading64 (Some nan)]]
    with
    | Throw _ _ => False
    | Return s =>
        exists a b, elevFt s = [a; b] /\ PrimFloat.eqb b a = true
    end.
Proof.
  intros h n Hn. rewrite parseGPXToSeries_eq by discriminate.
  do 2 eexists. split; [reflexivity|].
  exact (reconverts_centimetres Hn).
Qed.

(** * Further properties of the code *)

(** ** Stage markers and the total distance *)

Section Markers.

Context {num : Type} {N : Number num}.

Lemma ends_from_upper (trks : list (trk num)) (n : Z) :
  Forall (fun idx => (idx <= n + length_Z (concat trks) - 1)%Z) (ends_from n trks).
Proof.
  revert n. induction trks as [|t rest IH]; intros n; cbn [ends_from concat].
  - constructor.
  - unfold length_Z in *. rewrite length_app. constructor; [lia|].
    eapply Forall_impl; [|apply IH]. cbv beta. intros idx H. lia.
Qed.

Lemma In_mapi_from_In {A B : Type} (f : A -> Z -> B) (a : list A) (s : Z) (m : B) :
  In m (mapi_from f s a) -> exists v i, In v a /\ m = f v i.
Proof.
  revert s. induction a as [|v r IH]; intros s; cbn [mapi_from In]; [tauto|].
  intros [E | H].
  - exists v, s. split; [now left|now symmetry].
  - destruct (IH _ H) as (w & i & Hw & E). exists w, i. split; [now right|assumption].
Qed.

End Markers.

(** X1.  In every Series the code returns, every stage marker sits at the
    last flat index of a segment, an index greater than 0, and both its
    coordinates are defined: they are [distMi] and [elevFt] at that index.
    There are as many markers as segments whose last flat index is greater
    than 0. *)
Theorem stage_markers_defined :
  forall (num : Type) (N : Number num) (trks : list (trk num)) (s : Series num),
    parseGPXToSeries trks = Return s ->
    length (stageScatter s) =
    length (filter (fun idx => (0 <? idx)%Z) (ends_from 0 trks)) /\
    (length (stageScatter s) <= length trks)%nat /\
    forall m, In m (stageScatter s) ->
      exists (idx : Z) (d e : num),
        In idx (ends_from 0 trks) /\ (0 < idx < length_Z (pts s))%Z /\
        get (distMi s) idx = Some d /\ get (elevFt s) idx = Some e /\
        x m = Some d /\ y m = Some e.
Proof.
  intros num N trks s Hs.
  assert (Hne : trks <> []) by (intros ->; cbn in Hs; discriminate).
  rewrite (parseGPXToSeries_eq Hne) in Hs. injection Hs as <-.
  cbn [stageScatter pts distMi elevFt].
  set (ps := map readPoint (concat trks)).
  unfold stages, mapi. rewrite mapi_from_length.
  split; [reflexivity|]. split.
  { rewrite <- (ends_from_length trks 0). apply filter_length_le. }
  intros m Hm. apply In_mapi_from_In in Hm.
  destruct Hm as (idx & i & Hin & ->). cbn [x y].
  apply filter_In in Hin. destruct Hin as [Hin Hpos].
  apply Z.ltb_lt in Hpos.
  pose proof (ends_from_upper trks 0) as Hup.
  rewrite Forall_forall in Hup. specialize (Hup idx Hin).
  assert (Hlen : length_Z ps = length_Z (concat trks))
    by (unfold ps, length_Z; now rewrite length_map).
  pose proof (build_length ps) as [Hd He].
  assert (Hrange : (0 <= idx < length_Z ps)%Z) by lia.
  assert (Hmax : Nat.max 1 (length ps) = length ps)
    by (unfold length_Z in *; lia).
  destruct (get_in_range (fst (build ps)) (i := idx)) as [d Hgd].
  { unfold length_Z in *. rewrite Hd, Hmax. lia. }
  destruct (get_in_range (snd (build ps)) (i := idx)) as [e Hge].
  { unfold length_Z in *. rewrite He, Hmax. lia. }
  exists idx, d, e. repeat split; try assumption; lia.
Qed.

(* X1 at the track of Scenario B. *)
Lemma stage_markers_defined_witness :
  exists s : Series xreal,
    parseGPXToSeries scenario_B = Return s /\
    length (stageScatter s) =
    length (filter (fun idx => (0 <? idx)%Z) (ends_from 0 scenario_B)) /\
    (length (stageScatter s) <= length scenario_B)%nat.
Proof.
  eexists. split; [apply parseGPXToSeries_eq; discriminate|].
  destruct (@stage_markers_defined xreal xreal_Number scenario_B _
              (parseGPXToSeries_eq (trks := scenario_B) ltac:(discriminate)))
    as (H1 & H2 & _).
  split; assumption.
Defined.






(** ** The haversine distance *)

Lemma toRad_NaN : toRad XNaN = XNaN.
Proof. reflexivity. Qed.

(* A coordinate that is [NaN] makes the distance [NaN]. *)
Lemma haversineMiles_NaN (a b : point xreal) :
  lat a = XNaN \/ lon a = XNaN \/ lat b = XNaN \/ lon b = XNaN ->
  haversineMiles a b = XNaN.
Proof.
  destruct a as [la1 lo1 e1], b as [la2 lo2 e2]. cbn [lat lon].
  unfold haversineMiles. cbn [lat lon].
  destruct la1 as [|u1], lo1 as [|v1], la2 as [|u2], lo2 as [|v2];
    intros H; try (exfalso; intuition discriminate);
    repeat match goal with
      | |- context [nsub (XR ?p) (XR ?q)] =>
          change (nsub (XR p) (XR q)) with (XR (p - q))
      | |- context [nsub XNaN ?q] => change (nsub XNaN q) with XNaN
      | |- context [nsub (XR ?p) XNaN] => change (nsub (XR p) XNaN) with XNaN
      end;
    rewrite ?toRad_XR, ?toRad_NaN, ?half_XR; reflexivity.
Qed.

Lemma hav_A_sym (la1 lo1 la2 lo2 : R) : hav_A la2 lo2 la1 lo1 = hav_A la1 lo1 la2 lo2.
Proof.
  unfold hav_A.
  replace ((la1 - la2) * PI / 180 / 2) with (- ((la2 - la1) * PI / 180 / 2)) by field.
  replace ((lo1 - lo2) * PI / 180 / 2) with (- ((lo2 - lo1) * PI / 180 / 2)) by field.
  rewrite !sin_neg, <- !Rsqr_neg. ring.
Qed.

(** X3.  In exact arithmetic [haversineMiles] is symmetric, for all
    coordinates, [NaN] included. *)
Theorem haversineMiles_symmetric :
  forall a b : point xreal, haversineMiles a b = haversineMiles b a.
Proof.
  intros a b.
  destruct (lat a) as [|u1] eqn:E1.
  { rewrite !haversineMiles_NaN; auto. }
  destruct (lon a) as [|v1] eqn:E2.
  { rewrite !haversineMiles_NaN; auto. }
  destruct (lat b) as [|u2] eqn:E3.
  { rewrite !haversineMiles_NaN; auto. }
  destruct (lon b) as [|v2] eqn:E4.
  { rewrite !haversineMiles_NaN; auto 6. }
  destruct a as [la1 lo1 e1], b as [la2 lo2 e2]. cbn [lat lon] in *. subst.
  rewrite !haversineMiles_XR. unfold hav_miles. now rewrite hav_A_sym.
Qed.






(** ** Runs of readings that are no numbers *)

(** X7.  In exact arithmetic, a run of readings that are not finite, after a
    finite reading [e] at index [i], gets the elevation of index [i] at every
    index of the run: [e * 3.28084], however long the run is. *)
Theorem carry_forward_run :
  forall (trks : list (trk xreal)) (s : Series xreal) (i n : nat)
         (p : point xreal) (e : R),
    parseGPXToSeries trks = Return s ->
    nth_error (pts s) i = Some p ->
    ele p = XR e ->
    (forall k, (i < k <= i + n)%nat ->
               exists pk, nth_error (pts s) k = Some pk /\ isFinite (ele pk) = false) ->
    forall k, (i <= k <= i + n)%nat ->
              nth_error (elevFt s) k = Some (XR (e * (328084 / 100000))).
Proof.
  intros trks s i n p e Hs Hp He Hrun.
  assert (Hne : trks <> []) by (intros ->; cbn in Hs; discriminate).
  rewrite (parseGPXToSeries_eq Hne) in Hs. injection Hs as <-.
  cbn [pts elevFt] in *.
  set (ps := map readPoint (concat trks)) in *.
  induction n as [|n IH]; intros k Hk.
  - assert (k = i) by lia. subst k.
    rewrite (build_elev_finite ps i Hp) by (rewrite He; reflexivity).
    rewrite He. reflexivity.
  - destruct (Nat.eq_dec k (i + S n)) as [-> | Hne'].
    + destruct (Hrun (i + S n)%nat ltac:(lia)) as (pk & Hpk & Hnf).
      replace (i + S n)%nat with (S (i + n)) in * by lia.
      destruct (build_elev_step ps (i + n) Hpk) as (ePrev & Hprev & Hcur).
      rewrite IH in Hprev.
      * injection Hprev as <-. rewrite Hcur. unfold elevation_at. rewrite Hnf.
        now rewrite reconvert.
      * intros k' Hk'. apply Hrun. lia.
      * lia.
    + apply IH; [|lia]. intros k' Hk'. apply Hrun. lia.
Qed.

(* X7 at the readings 100, then two texts that are no numbers. *)
Lemma carry_forward_run_witness :
  exists s : Series xreal,
    parseGPXToSeries track_gap_run = Return s /\
    nth_error (elevFt s) 2 = Some (XR (100 * (328084 / 100000))).
Proof.
  eexists. split; [apply parseGPXToSeries_eq; discriminate|].
  apply (@carry_forward_run track_gap_run _ 0%nat 2%nat
           (readPoint (reading (Some (XR 100)))) 100
           (parseGPXToSeries_eq (trks := track_gap_run) ltac:(discriminate))
           eq_refl eq_refl); [|lia].
  intros k Hk. destruct k as [|[|[|k]]]; try lia.
  - eexists. split; reflexivity.
  - eexists. split; reflexivity.
Defined.

(** X8.  On doubles, for every host: readings that are not finite from the
    first point on are never repaired.  At every index of that leading run
    the elevation is not finite: [NaN] or an infinity multiplied by the
    factor at index 0, and from then on the value before, divided by the
    factor and multiplied again. *)
Theorem leading_gap_never_repaired :
  forall (h : Host) (trks : list (trk float)) (s : Series float) (n : nat),
    parseGPXToSeries (N := float_Number h) trks = Return s ->
    (forall k, (k <= n)%nat ->
               exists pk, nth_error (pts s) k = Some pk /\
                          PrimFloat.is_finite (ele pk) = false) ->
    forall k, (k <= n)%nat ->
              exists e, nth_error (elevFt s) k = Some e /\
                        PrimFloat.is_finite e = false.
Proof.
  intros h trks s n Hs Hrun.
  assert (Hne : trks <> []) by (intros ->; cbn in Hs; discriminate).
  rewrite (parseGPXToSeries_eq Hne) in Hs. injection Hs as <-.
  cbn [pts elevFt] in *.
  set (ps := map (readPoint (N := float_Number h)) (concat trks)) in *.
  induction n as [|n IH]; intros k Hk.
  - assert (k = 0)%nat by lia. subst k.
    destruct (Hrun 0%nat ltac:(lia)) as (p0 & Hp0 & Hnf).
    destruct ps as [|q rest]; [discriminate|]. injection Hp0 as ->.
    rewrite build_elev_0. eexists. split; [reflexivity|].
    now apply (mul_not_finite h).
  - destruct (Nat.eq_dec k (S n)) as [-> | Hne'].
    + destruct (Hrun (S n) ltac:(lia)) as (pk & Hpk & Hnf).
      destruct (@build_elev_step float (float_Number h) ps n pk Hpk)
        as (ePrev & Hprev & Hcur).
      destruct (IH (fun k' Hk' => Hrun k' ltac:(lia)) n ltac:(lia))
        as (e & He & Hef).
      rewrite Hprev in He. injection He as ->.
      rewrite Hcur. eexists. split; [reflexivity|].
      unfold elevation_at. cbn [isFinite float_Number]. rewrite Hnf.
      apply (mul_not_finite h). now apply (div_not_finite h).
    + apply IH; [|lia]. intros k' Hk'. apply Hrun. lia.
Qed.

(* X8 at the readings [Infinity], then a text that is no number, then 100:
   the elevation at index 1 is the infinity of index 0. *)
Lemma leading_gap_never_repaired_witness :
  exists (s : Series float) (e : float),
    parseGPXToSeries (N := float_Number special_values_host)
      [[reading64 (Some infinity); reading64 (Some nan); reading64 (Some 100%float)]]
    = Return s /\
    nth_error (elevFt s) 1 = Some e /\
    PrimFloat.is_finite e = false.
Proof.
  eexists.
  destruct (@leading_gap_never_repaired special_values_host
              [[reading64 (Some infinity); reading64 (Some nan);
                reading64 (Some 100%float)]] _ 1%nat
              (parseGPXToSeries_eq (N := float_Number special_values_host)
                 (trks := [[reading64 (Some infinity); reading64 (Some nan);
                            reading64 (Some 100%float)]])
                 ltac:(discriminate))) with (k := 1%nat)
    as (e & He & Hef).
  - intros k Hk. destruct k as [|[|k]]; try lia.
    + eexists. split; reflexivity.
    + eexists. split; reflexivity.
  - lia.
  - exists e. split; [apply parseGPXToSeries_eq; discriminate|].
    split; assumption.
Defined.

(** ** The locator at the ends of the range and at exact values *)

Section LocatorEdges.

Context {num : Type} {N : Number num}.

Variable distMi : list num.
Variable mi : num.

(* When the test holds at every index below [hi], the loop ends at [hi]. *)
Lemma search_all_below (fuel : nat) :
  forall lo hi,
    (0 <= lo <= hi)%Z -> (hi < 2 ^ 30)%Z -> (hi - lo <= Z.of_nat fuel)%Z ->
    (forall j, (lo <= j < hi)%Z -> below distMi mi j = true) ->
    search fuel distMi mi lo hi = Some hi.
Proof.
  induction fuel as [|fuel IH]; intros lo hi Hlo Hhi Hfuel Hall.
  - assert (lo = hi) by lia. subst hi. cbn [search].
    now rewrite Z.ltb_irrefl.
  - cbn [search]. destruct (Z.ltb_spec lo hi) as [Hlt | Hge].
    + pose proof (mid_between (lo := lo) (hi := hi)) as Hm.
      destruct Hm as [Hm1 Hm2]; [lia|lia|].
      fold (below distMi mi (sar1 (lo + hi))).
      rewrite (Hall (sar1 (lo + hi))) by lia.
      apply IH; try lia. intros j Hj. apply Hall. lia.
    + f_equal. lia.
Qed.

(* When the test fails at every index, the loop ends at [lo]. *)
Lemma search_none_below (fuel : nat) :
  (forall j, below distMi mi j = false) ->
  forall lo hi,
    (0 <= lo)%Z -> (hi < 2 ^ 30)%Z -> (hi - lo <= Z.of_nat fuel)%Z ->
    search fuel distMi mi lo hi = Some lo.
Proof.
  intros Hnone.
  induction fuel as [|fuel IH]; intros lo hi Hlo Hhi Hfuel.
  - cbn [search]. destruct (Z.ltb_spec lo hi); [lia|reflexivity].
  - cbn [search]. destruct (Z.ltb_spec lo hi) as [Hlt | Hge]; [|reflexivity].
    pose proof (mid_between (lo := lo) (hi := hi)) as Hm.
    destruct Hm as [Hm1 Hm2]; [lia|lia|].
    fold (below distMi mi (sar1 (lo + hi))). rewrite Hnone.
    apply IH; lia.
Qed.

End LocatorEdges.

(** X9.  A query that compares false with every distance, as [NaN] does,
    makes [kmToIndex] return index 0, for every Number and every array of at
    most [2 ^ 30] values, the empty one included. *)
Theorem kmToIndex_incomparable_query :
  forall (num : Type) (N : Number num) (distMi : list num) (mi : num) (fuel : nat),
    (forall v, nlt v mi = false) ->
    (length_Z distMi <= 2 ^ 30)%Z ->
    (length distMi <= fuel)%nat ->
    kmToIndex fuel distMi mi = Some 0%Z.
Proof.
  intros num N distMi mi fuel Hnan Hsize Hfuel.
  unfold kmToIndex.
  rewrite search_none_below; try (unfold length_Z in *; lia).
  - change (Z.max 0 (0 - 1)) with 0%Z.
    now destruct (nearer_or_equal (get distMi 0) (get distMi 0) mi).
  - intros j. unfold below, lt_read. destruct (get distMi j); [apply Hnan|reflexivity].
Qed.

(* X9 at [0; 1; 3] and the query [NaN]. *)
Lemma kmToIndex_incomparable_query_witness :
  kmToIndex 3 [XR 0; XR 1; XR 3] XNaN = Some 0%Z.
Proof.
  apply (@kmToIndex_incomparable_query xreal xreal_Number [XR 0; XR 1; XR 3] XNaN 3%nat).
  - intros [|v]; reflexivity.
  - vm_compute. discriminate.
  - simpl. lia.
Defined.

(* On doubles, nothing is less than [NaN]. *)
Lemma nothing_below_nan (v : float) : PrimFloat.ltb v nan = false.
Proof.
  rewrite FloatAxioms.ltb_spec. change (Prim2SF nan) with S754_nan.
  unfold SFltb. now destruct (Prim2SF v).
Qed.

(* The locator on a non-decreasing array of reals, for a query up to the last
   value: the lower bound [r], the values [d1] and [d2] at the two
   candidates, and the index returned. *)
Lemma kmToIndex_real (rs : list R) (q total : R) (fuel : nat) :
  (forall i u v, nth_error rs i = Some u -> nth_error rs (S i) = Some v -> u <= v) ->
  (length_Z rs <= 2 ^ 30)%Z ->
  (length rs <= fuel)%nat ->
  get rs (length_Z rs - 1) = Some total ->
  q <= total ->
  exists r d1 d2,
    get rs r = Some d2 /\ q <= d2 /\
    (forall j u, (0 <= j < r)%Z -> get rs j = Some u -> u < q) /\
    get rs (Z.max 0 (r - 1)) = Some d1 /\
    kmToIndex fuel (map XR rs) (XR q) =
    Some (if Rleb (Rabs (d1 - q)) (Rabs (d2 - q)) then Z.max 0 (r - 1) else r).
Proof.
  intros Hadj Hsize Hfuel Ht Hq.
  destruct (@search_real rs q total fuel Hadj Hsize Hfuel Ht Hq)
    as (r & d2 & Hr & Hd2 & Hq2 & Hbelow).
  pose proof (get_Some_range _ _ Hd2) as Hrr.
  destruct (get_in_range rs (i := Z.max 0 (r - 1))) as [d1 Hd1]; [lia|].
  exists r, d1, d2. repeat split; try assumption.
  unfold kmToIndex.
  assert (HlenZ : length_Z (map XR rs) = length_Z rs)
    by (unfold length_Z; now rewrite length_map).
  rewrite HlenZ, Hr, !get_map, Hd1, Hd2. reflexivity.
Qed.

(* a non-decreasing array that holds one real holds only reals *)
Lemma sorted_reals (l : list xreal) :
  non_decreasing l ->
  (exists i r, nth_error l i = Some (XR r)) ->
  exists rs,
    l = map XR rs /\
    forall i u v, nth_error rs i = Some u -> nth_error rs (S i) = Some v -> u <= v.
Proof.
  intros Hsorted (i0 & r0 & Hr0).
  destruct (all_XR l) as [rs ->].
  { intros j a Ha.
    destruct (nth_error l (S j)) as [b|] eqn:Hb.
    - destruct (nle_XR _ _ (Hsorted j a b Ha Hb)) as (u & _ & -> & _). eauto.
    - destruct j as [|j].
      + apply nth_error_None in Hb.
        assert (i0 = 0)%nat.
        { assert (i0 < length l)%nat by (apply nth_error_Some; congruence). lia. }
        subst i0. rewrite Hr0 in Ha. injection Ha as <-. eauto.
      + destruct (nth_error l j) as [c|] eqn:Hc.
        * destruct (nle_XR _ _ (Hsorted j c a Hc Ha)) as (_ & v & _ & -> & _). eauto.
        * apply nth_error_None in Hc.
          assert (nth_error l (S j) = None) by (apply nth_error_None; lia).
          congruence. }
  exists rs. split; [reflexivity|].
  intros i u v Hu Hv.
  assert (E : nle (XR u) (XR v) = true)
    by (apply (Hsorted i); rewrite nth_error_map; [rewrite Hu|rewrite Hv]; reflexivity).
  now apply Rleb_true in E.
Qed.

Lemma get_last_real (rs : list R) (i : Z) (u : R) :
  get rs i = Some u -> exists total, get rs (length_Z rs - 1) = Some total.
Proof.
  intros H. pose proof (get_Some_range _ _ H). apply get_in_range. lia.
Qed.

(** X10.  In exact arithmetic, on a non-decreasing [distMi] of at most
    [2 ^ 30] values: a query at or below the first value, a negative one
    included, makes [kmToIndex] return index 0. *)
Theorem kmToIndex_at_or_below_first :
  forall (distMi : list xreal) (q first : xreal) (fuel : nat),
    non_decreasing distMi ->
    (length_Z distMi <= 2 ^ 30)%Z ->
    (length distMi <= fuel)%nat ->
    get distMi 0 = Some first ->
    nle q first = true ->
    kmToIndex fuel distMi q = Some 0%Z.
Proof.
  intros distMi q first fuel Hsorted Hsize Hfuel Hfirst Hq.
  destruct (nle_XR _ _ Hq) as (qr & f & -> & -> & Hqf).
  destruct (sorted_reals Hsorted) as (rs & -> & Hadj).
  { exists 0%nat, f. exact Hfirst. }
  rewrite get_map in Hfirst.
  destruct (get rs 0) as [f'|] eqn:Hf; [|discriminate]. injection Hfirst as ->.
  assert (HlenZ : length_Z (map XR rs) = length_Z rs)
    by (unfold length_Z; now rewrite length_map).
  rewrite HlenZ in Hsize. rewrite length_map in Hfuel.
  destruct (get_last_real _ _ Hf) as [total Ht].
  pose proof (get_Some_range _ _ Ht) as Hlen.
  assert (Hft : f <= total)
    by (apply (@sorted_get rs Hadj 0%Z (length_Z rs - 1)%Z f total); [lia|assumption..]).
  destruct (@kmToIndex_real rs qr total fuel Hadj Hsize Hfuel Ht ltac:(lra))
    as (r & d1 & d2 & Hd2 & Hq2 & Hbelow & Hd1 & Hk).
  assert (r = 0)%Z.
  { pose proof (get_Some_range _ _ Hd2).
    destruct (Z.eq_dec r 0) as [|Hne]; [assumption|].
    pose proof (Hbelow 0%Z f ltac:(lia) Hf). lra. }
  subst r. rewrite Hk. change (Z.max 0 (0 - 1)) with 0%Z.
  now destruct (Rleb _ _).
Qed.

(* X10 at [0; 1; 3] and the query -5. *)
Lemma kmToIndex_at_or_below_first_witness :
  kmToIndex 3 [XR 0; XR 1; XR 3] (XR (-5)) = Some 0%Z.
Proof.
  apply (@kmToIndex_at_or_below_first [XR 0; XR 1; XR 3] (XR (-5)) (XR 0) 3%nat).
  - intros [|[|[|i]]] a b Ha Hb; cbn in Ha, Hb; try discriminate;
      injection Ha as <-; injection Hb as <-; apply Rleb_true; lra.
  - vm_compute. discriminate.
  - simpl. lia.
  - reflexivity.
  - apply Rleb_true. lra.
Defined.

(** X11.  In exact arithmetic, on a non-decreasing [distMi] of at most
    [2 ^ 30] values: a query equal to a value of the array makes [kmToIndex]
    return the first index that holds this value. *)
Theorem kmToIndex_exact_value :
  forall (distMi : list xreal) (q : R) (k : Z) (fuel : nat),
    non_decreasing distMi ->
    (length_Z distMi <= 2 ^ 30)%Z ->
    (length distMi <= fuel)%nat ->
    get distMi k = Some (XR q) ->
    exists idx : Z,
      kmToIndex fuel distMi (XR q) = Some idx /\
      get distMi idx = Some (XR q) /\
      (idx <= k)%Z /\
      (forall j d, (0 <= j < idx)%Z -> get distMi j = Some d -> nlt d (XR q) = true).
Proof.
  intros distMi q k fuel Hsorted Hsize Hfuel Hk.
  pose proof (get_Some_range _ _ Hk) as Hkr.
  destruct (sorted_reals Hsorted) as (rs & -> & Hadj).
  { exists (Z.to_nat k), q. rewrite <- get_nat, Z2Nat.id by lia. exact Hk. }
  rewrite get_map in Hk.
  destruct (get rs k) as [qk|] eqn:Hqk; [|discriminate]. injection Hk as ->.
  assert (HlenZ : length_Z (map XR rs) = length_Z rs)
    by (unfold length_Z; now rewrite length_map).
  rewrite HlenZ in *. rewrite length_map in Hfuel.
  destruct (get_last_real _ _ Hqk) as [total Ht].
  assert (Hqt : q <= total)
    by (apply (@sorted_get rs Hadj k (length_Z rs - 1)%Z q total); [lia|assumption..]).
  destruct (@kmToIndex_real rs q total fuel Hadj Hsize Hfuel Ht Hqt)
    as (r & d1 & d2 & Hd2 & Hq2 & Hbelow & Hd1 & Hkm).
  pose proof (get_Some_range _ _ Hd2) as Hrr.
  assert (Hrk : (r <= k)%Z).
  { destruct (Z_le_gt_dec r k) as [|Hgt]; [assumption|].
    pose proof (Hbelow k q ltac:(lia) Hqk). lra. }
  assert (Hd2q : d2 = q).
  { pose proof (@sorted_get rs Hadj r k d2 q Hrk Hd2 Hqk). lra. }
  subst d2.
  assert (Hidx : (if Rleb (Rabs (d1 - q)) (Rabs (q - q)) then Z.max 0 (r - 1) else r) = r).
  { destruct (Z.eq_dec r 0) as [-> | Hne].
    - change (Z.max 0 (0 - 1)) with 0%Z. now destruct (Rleb _ _).
    - pose proof (Hbelow (Z.max 0 (r - 1)) d1 ltac:(lia) Hd1) as Hlt.
      destruct (Rleb (Rabs (d1 - q)) (Rabs (q - q))) eqn:E; [|reflexivity].
      apply Rleb_true in E. revert E.
      unfold Rabs; repeat destruct Rcase_abs; lra. }
  exists r. rewrite Hkm, Hidx, get_map, Hd2.
  repeat split; try assumption.
  intros j d Hj Hd. rewrite get_map in Hd.
  destruct (get rs j) as [u|] eqn:Hu; [|discriminate]. injection Hd as <-.
  cbn. apply Rltb_true. exact (Hbelow j u Hj Hu).
Qed.

(* X11 at [0; 1; 1; 3] and the query 1, the value at the indexes 1 and 2. *)
Lemma kmToIndex_exact_value_witness :
  kmToIndex 4 [XR 0; XR 1; XR 1; XR 3] (XR 1) = Some 1%Z.
Proof.
  destruct (@kmToIndex_exact_value [XR 0; XR 1; XR 1; XR 3] 1 2%Z 4%nat)
    as (idx & Hk & Hget & Hle & Hbelow).
  - intros [|[|[|[|i]]]] a b Ha Hb; cbn in Ha, Hb; try discriminate;
      injection Ha as <-; injection Hb as <-; apply Rleb_true; lra.
  - vm_compute. discriminate.
  - simpl. lia.
  - reflexivity.
  - rewrite Hk. f_equal.
    pose proof (get_Some_range _ _ Hget) as Hr.
    assert (Hc : idx = 0%Z \/ idx = 1%Z \/ idx = 2%Z) by lia.
    destruct Hc as [-> | [-> | ->]].
    + cbn in Hget. injection Hget as Hget. lra.
    + reflexivity.
    + specialize (Hbelow 1%Z (XR 1) ltac:(lia) eq_refl).
      apply Rltb_true in Hbelow. lra.
Defined.

(** X12.  On doubles, for every host, on a non-decreasing [distMi] of at
    most [2 ^ 30] values: a query beyond the last value makes the loop end at
    the last index, and [kmToIndex] return one of the last two indexes: the
    one before the last when its gap, as the subtraction of doubles rounds
    it, is not larger than the gap of the last, and the last otherwise. *)
Theorem kmToIndex_beyond_total :
  forall (h : Host) (distMi : list float) (q total : float) (fuel : nat),
    non_decreasing (N := float_Number h) distMi ->
    (length_Z distMi <= 2 ^ 30)%Z ->
    (length distMi <= fuel)%nat ->
    get distMi (length_Z distMi - 1) = Some total ->
    PrimFloat.ltb total q = true ->
    exists d1 : float,
      get distMi (Z.max 0 (length_Z distMi - 2)) = Some d1 /\
      kmToIndex (N := float_Number h) fuel distMi q =
      Some (if PrimFloat.leb (PrimFloat.abs (PrimFloat.sub d1 q))
                             (PrimFloat.abs (PrimFloat.sub total q))
            then Z.max 0 (length_Z distMi - 2)
            else (length_Z distMi - 1)%Z).
Proof.
  intros h distMi q total fuel Hsorted Hsize Hfuel Ht Hq.
  pose proof (get_Some_range _ _ Ht) as Hlen.
  assert (Hs : search (N := float_Number h) fuel distMi q 0 (length_Z distMi - 1) =
               Some (length_Z distMi - 1)%Z).
  { apply search_all_below; try lia.
    - unfold length_Z in *. lia.
    - intros j Hj. unfold below.
      destruct (get_in_range distMi (i := j)) as [u Hu]; [lia|].
      rewrite Hu. cbn [lt_read nlt float_Number].
      apply (@leb_ltb_trans u total q); [|exact Hq].
      exact (@ordered_get float (float_Number h) leb_trans distMi Hsorted
               j (length_Z distMi - 1)%Z u total ltac:(lia) Hu Ht). }
  destruct (get_in_range distMi (i := Z.max 0 (length_Z distMi - 2))) as [d1 Hd1];
    [lia|].
  exists d1. split; [exact Hd1|].
  unfold kmToIndex. rewrite Hs.
  replace (length_Z distMi - 1 - 1)%Z with (length_Z distMi - 2)%Z by lia.
  rewrite Hd1, Ht. reflexivity.
Qed.

(* X12 at the doubles [0; 1; 3] and the query 1e17: the two gaps round to
   1e17, and the index is the one before the last. *)
Lemma kmToIndex_beyond_total_witness :
  (exists d1 : float,
     get [0; 1; 3]%float (Z.max 0 (length_Z [0; 1; 3]%float - 2)) = Some d1 /\
     kmToIndex (N := float_Number special_values_host) 3 [0; 1; 3]%float 1e17%float =
     Some (if PrimFloat.leb (PrimFloat.abs (PrimFloat.sub d1 1e17))
                            (PrimFloat.abs (PrimFloat.sub 3 1e17))
           then Z.max 0 (length_Z [0; 1; 3]%float - 2)
           else (length_Z [0; 1; 3]%float - 1)%Z)) /\
  kmToIndex (N := float_Number special_values_host) 3 [0; 1; 3]%float 1e17%float
  = Some 1%Z.
Proof.
  split; [|reflexivity].
  apply (@kmToIndex_beyond_total special_values_host [0; 1; 3]%float 1e17%float
           3%float 3%nat).
  - intros [|[|[|i]]] a b Ha Hb; cbn in Ha, Hb; try discriminate;
      injection Ha as <-; injection Hb as <-; reflexivity.
  - vm_compute. discriminate.
  - simpl. lia.
  - reflexivity.
  - reflexivity.
Defined.

(** ** The cursor on the map and on the chart *)

Section CursorFacts.

Context {num : Type} {N : Number num}.

Lemma updateFromEvent_point (fuel : nat) (s : Series num) (mi : num)
      (idx : Z) (pt : point num) :
  updateFromEvent fuel s mi = Some (idx, pt) ->
  get (pts s) idx = Some pt /\ In pt (pts s).
Proof.
  unfold updateFromEvent.
  destruct (kmToIndex fuel (distMi s) mi) as [i|]; [|discriminate].
  destruct (get (pts s) i) as [p|] eqn:Hp; [|discriminate].
  intros E. injection E as <- <-. split; [exact Hp|].
  unfold get in Hp. destruct (i <? 0)%Z; [discriminate|].
  eapply nth_error_In; eassumption.
Qed.

Lemma handle_in_sync (fuel : nat) (s : Series num) (w : widget num) (e : event num) :
  in_sync s w -> in_sync s (handle fuel s w e).
Proof.
  intros [Hpan Hsync]. destruct e as [mi| |]; cbn [handle].
  - unfold on_mousemove.
    destruct (updateFromEvent fuel s mi) as [[idx pt]|] eqn:Hu; [|now split].
    destruct (isNaN (lat pt) || isNaN (lon pt)); [now split|].
    destruct (updateFromEvent_point _ _ _ Hu) as [Hget Hin].
    split.
    + unfold ensureCursorMarker. now destruct (cursorMarker w).
    + cbn [activeElements cursorMarker]. split; [reflexivity|].
      exists pt. unfold ensureCursorMarker.
      destruct (cursorMarker w) as [c|] eqn:Hm;
        cbn [cursorMarker option_map]; rewrite ?Hm; cbn [option_map];
        eexists; repeat split; try reflexivity; assumption.
  - unfold on_mouseleave. split; [exact Hpan|].
    cbn [activeElements cursorMarker].
    destruct (cursorMarker w) as [m|] eqn:Hm; cbn [option_map]; [|exact I].
    cbn [opacity fillOpacity latlng]. repeat split.
    destruct (activeElements w) as [|[ds idx] [|? ?]]; try contradiction.
    + destruct Hsync as (_ & _ & H). exact H.
    + destruct Hsync as (_ & pt & m' & Hget & Hm' & Hll & _).
      injection Hm' as <-. exists pt. split; [|exact Hll].
      unfold get in Hget. destruct (idx <? 0)%Z; [discriminate|].
      eapply nth_error_In; eassumption.
  - unfold on_click. destruct (cursorMarker w) as [m|] eqn:Hm.
    2:{ split; [exact Hpan|]. rewrite Hm. exact Hsync. }
    split.
    + cbn [panTo]. intros ll Hll. apply in_app_iff in Hll.
      destruct Hll as [Hll | [<- | []]]; [now apply Hpan|].
      destruct (activeElements w) as [|[ds idx] [|? ?]]; try contradiction.
      * destruct Hsync as (_ & _ & H). exact H.
      * destruct Hsync as (_ & pt & m' & Hget & Hm' & Hll & _).
        injection Hm' as <-. exists pt. split; [|exact Hll].
        unfold get in Hget. destruct (idx <? 0)%Z; [discriminate|].
        eapply nth_error_In; eassumption.
    + cbn [activeElements cursorMarker]. exact Hsync.
Qed.

Lemma fold_handle_leaves (fuel : nat) (s : Series num) (k : nat) (w : widget num) :
  fold_left (handle fuel s) (repeat (@Mouseleave num) (S k)) w = on_mouseleave w.
Proof.
  revert w. induction k as [|k IH]; intros w; [reflexivity|].
  change (repeat (@Mouseleave num) (S (S k)))
    with (@Mouseleave num :: repeat (@Mouseleave num) (S k)).
  cbn [fold_left handle]. rewrite IH.
  unfold on_mouseleave. cbn [cursorMarker panTo].
  now destruct (cursorMarker w).
Qed.

End CursorFacts.

(** X13.  After every sequence of [mousemove], [mouseleave] and [click],
    for every Number: either the chart has no active element and the cursor
    marker, if it was created, is hidden; or the chart has exactly the active
    element [{ datasetIndex: 0, index: idx }] and the marker is shown at the
    latitude and longitude of [pts[idx]].  The marker and every position the
    map was panned to are positions of points of the track. *)
Theorem cursor_in_sync :
  forall (num : Type) (N : Number num) (fuel : nat) (s : Series num)
         (evs : list (event num)),
    in_sync s (session fuel s evs).
Proof.
  intros num N fuel s evs. unfold session.
  assert (H : forall w, in_sync s w -> in_sync s (fold_left (handle fuel s) evs w)).
  { induction evs as [|e evs IH]; intros w Hw; [exact Hw|].
    cbn [fold_left]. apply IH. now apply handle_in_sync. }
  apply H. split; [intros ll []|exact I].
Qed.

(** X14.  A [click] pans the map to the last point a [mousemove] found, also
    after the pointer has left the chart any number of times: the marker is
    hidden by [mouseleave], not removed, and keeps its position. *)
Theorem click_after_leave :
  forall (num : Type) (N : Number num) (fuel : nat) (s : Series num)
         (evs : list (event num)) (mi : num) (idx : Z) (pt : point num) (k : nat),
    updateFromEvent fuel s mi = Some (idx, pt) ->
    isNaN (lat pt) = false ->
    isNaN (lon pt) = false ->
    panTo (session fuel s (evs ++ Mousemove mi :: repeat (@Mouseleave num) k ++ [@Click num])) =
    panTo (session fuel s evs) ++ [(lat pt, lon pt)].
Proof.
  intros num N fuel s evs mi idx pt k Hu Hlat Hlon.
  unfold session. rewrite fold_left_app. cbn [fold_left].
  set (w := fold_left (handle fuel s) evs initial_widget).
  rewrite fold_left_app. cbn [fold_left].
  cbn [handle]. unfold on_mousemove at 1. rewrite Hu, Hlat, Hlon. cbn [orb].
  clearbody w.
  destruct k as [|k].
  - cbn [repeat fold_left]. unfold on_click, ensureCursorMarker.
    destruct (cursorMarker w) as [m|] eqn:Hm;
      cbn [cursorMarker panTo option_map]; rewrite ?Hm; reflexivity.
  - rewrite fold_handle_leaves.
    unfold on_click, on_mouseleave, ensureCursorMarker.
    destruct (cursorMarker w) as [m|] eqn:Hm;
      cbn [cursorMarker panTo option_map latlng]; rewrite ?Hm; reflexivity.
Qed.

(* X14 at a Series of two points: a move to the query 0, a leave, a click. *)
Lemma click_after_leave_witness :
  panTo (session 2 two_point_series [Mousemove (XR 0); Mouseleave; Click]) =
  [(XR 0, XR 0)].
Proof.
  assert (Hu : updateFromEvent 2 two_point_series (XR 0) =
               Some (0%Z, {| lat := XR 0; lon := XR 0; ele := XR 100 |})).
  { unfold updateFromEvent, kmToIndex. cbn.
    unfold Rltb. destruct (Rlt_dec 0 0) as [E | _]; [lra|].
    cbn. unfold Rleb. destruct (Rle_dec (Rabs (0 - 0)) (Rabs (0 - 0))); reflexivity. }
  refine (@click_after_leave xreal xreal_Number 2%nat two_point_series []
            (XR 0) 0%Z _ 1%nat Hu _ _).
  - unfold isNaN. cbn. unfold Rleb. destruct (Rle_dec 0 0); [reflexivity|lra].
  - unfold isNaN. cbn. unfold Rleb. destruct (Rle_dec 0 0); [reflexivity|lra].
Defined.

(** ** Loading the libraries once *)

Lemma libs_functional (key url url' : string) :
  In (key, url) libs -> In (key, url') libs -> url = url'.
Proof.
  unfold libs, leaflet_js, leaflet_gpx_js, chart_js. cbn [In].
  intros [H | [H | [H | []]]] [H' | [H' | [H' | []]]]; congruence.
Qed.

Lemma libs_injective (key key' url : string) :
  In (key, url) libs -> In (key', url) libs -> key = key'.
Proof.
  unfold libs, leaflet_js, leaflet_gpx_js, chart_js. cbn [In].
  intros [H | [H | [H | []]]] [H' | [H' | [H' | []]]]; congruence.
Qed.

Lemma loadScriptOnce_ok (url key : string) (pg : page) :
  In (key, url) libs -> page_ok pg -> page_ok (snd (loadScriptOnce url key pg)).
Proof.
  intros Hin (Hcache & Hnodup & Hincl).
  unfold loadScriptOnce.
  destruct (cached key (_scriptCache pg)) as [p|] eqn:Hc; [now repeat split|].
  cbn [snd]. pose proof (Hcache key url Hin) as Hnew. rewrite Hc in Hnew.
  repeat split; cbn [scripts _scriptCache].
  - intros key' url' Hin'. cbn [cached].
    pose proof (Hcache key' url' Hin') as Hold.
    destruct (String.eqb key key') eqn:Ek.
    + apply String.eqb_eq in Ek. subst key'.
      assert (url' = url) by exact (libs_functional Hin' Hin).
      subst url'. rewrite nth_error_app2 by lia. now rewrite Nat.sub_diag.
    + destruct (cached key' (_scriptCache pg)) as [p'|].
      * rewrite nth_error_app1; [exact Hold|]. apply nth_error_Some. congruence.
      * intros Hu. apply in_app_iff in Hu. destruct Hu as [Hu | [Hu | []]]; [tauto|].
        subst url'. apply String.eqb_neq in Ek. apply Ek.
        exact (libs_injective Hin Hin').
  - apply NoDup_app; [exact Hnodup|repeat constructor; intros []|].
    intros u Hu [<- | []]. contradiction.
  - apply incl_app; [exact Hincl|].
    intros u [<- | []]. change url with (snd (key, url)). now apply in_map.
Qed.

Lemma ensureLibs_ok (opts : libs_opts) (pg : page) :
  page_ok pg -> page_ok (snd (ensureLibs opts pg)).
Proof.
  intros Hok. unfold ensureLibs.
  assert (H0 : page_ok (ensureLeafletCss pg)).
  { unfold ensureLeafletCss. now destruct (0 <? leaflet_links pg)%nat. }
  pose proof (@loadScriptOnce_ok leaflet_js "leaflet" _ ltac:(cbn; auto) H0) as H1.
  destruct (loadScriptOnce leaflet_js "leaflet" (ensureLeafletCss pg)) as [p1 pg1].
  cbn [snd] in H1.
  assert (H2 : page_ok
                 (snd (if not_false (wantsGPX opts)
                       then let '(p, pg) := loadScriptOnce leaflet_gpx_js "leaflet-gpx" pg1
                            in ([p], pg)
                       else ([], pg1)))).
  { destruct (not_false (wantsGPX opts)); [|exact H1].
    pose proof (@loadScriptOnce_ok leaflet_gpx_js "leaflet-gpx" _ ltac:(cbn; auto) H1) as H.
    now destruct (loadScriptOnce leaflet_gpx_js "leaflet-gpx" pg1). }
  destruct (if not_false (wantsGPX opts)
            then let '(p, pg) := loadScriptOnce leaflet_gpx_js "leaflet-gpx" pg1
                 in ([p], pg)
            else ([], pg1)) as [p2 pg2].
  cbn [snd] in H2.
  destruct (not_false (wantsChart opts)); [|exact H2].
  pose proof (@loadScriptOnce_ok chart_js "chart" _ ltac:(cbn; auto) H2) as H.
  now destruct (loadScriptOnce chart_js "chart" pg2).
Qed.

(** X15.  However many times [ensureLibs] runs on a page, and with whatever
    options: no script is appended twice, every script appended is one of the
    three libraries, so at most three are, and every library in the cache has
    its script in the page. *)
Theorem libraries_loaded_once :
  forall (links : nat) (calls : list libs_opts),
    let pg := ensureLibs_all calls (fresh_page links) in
    NoDup (scripts pg) /\
    incl (scripts pg) [leaflet_js; leaflet_gpx_js; chart_js] /\
    (length (scripts pg) <= 3)%nat /\
    (forall key p, cached key (_scriptCache pg) = Some p ->
                   In key ["leaflet"; "leaflet-gpx"; "chart"]%string ->
                   exists url, In (key, url) libs /\ nth_error (scripts pg) p = Some url).
Proof.
  intros links calls pg.
  assert (Hok : page_ok pg).
  { subst pg. unfold ensureLibs_all.
    assert (H : forall pg0, page_ok pg0 ->
                page_ok (fold_left (fun pg opts => snd (ensureLibs opts pg)) calls pg0)).
    { induction calls as [|c calls IH]; intros pg0 H0; [exact H0|].
      cbn [fold_left]. apply IH. now apply ensureLibs_ok. }
    apply H. repeat split.
    - intros key url _. cbn. tauto.
    - constructor.
    - intros u []. }
  destruct Hok as (Hcache & Hnodup & Hincl).
  repeat split; try assumption.
  - apply (NoDup_incl_length Hnodup Hincl).
  - intros key p Hc Hkey.
    assert (Hurl : exists url, In (key, url) libs).
    { cbn in Hkey.
      destruct Hkey as [<- | [<- | [<- | []]]]; eexists; cbn; eauto. }
    destruct Hurl as [url Hurl]. exists url. split; [exact Hurl|].
    specialize (Hcache key url Hurl). now rewrite Hc in Hcache.
Qed.

Lemma loadScriptOnce_again (url key : string) (pg : page) :
  let '(p, pg') := loadScriptOnce url key pg in
  cached key (_scriptCache pg') = Some p.
Proof.
  unfold loadScriptOnce.
  destruct (cached key (_scriptCache pg)) as [p|] eqn:Hc; [exact Hc|].
  cbn [_scriptCache cached]. now rewrite String.eqb_refl.
Qed.

Lemma loadScriptOnce_other (url key key' : string) (pg : page) (p : nat) :
  cached key' (_scriptCache pg) = Some p ->
  cached key' (_scriptCache (snd (loadScriptOnce url key pg))) = Some p.
Proof.
  intros Hc'. unfold loadScriptOnce.
  destruct (cached key (_scriptCache pg)) as [q|] eqn:Hc; [exact Hc'|].
  cbn [snd _scriptCache cached].
  destruct (String.eqb key key') eqn:Ek; [|exact Hc'].
  apply String.eqb_eq in Ek. congruence.
Qed.

Lemma loadScriptOnce_cached (url key : string) (pg : page) (p : nat) :
  cached key (_scriptCache pg) = Some p -> loadScriptOnce url key pg = (p, pg).
Proof. intros Hc. unfold loadScriptOnce. now rewrite Hc. Qed.

(** X16.  A second call of [ensureLibs] with the same options appends
    nothing and changes nothing: it returns the promises of the first call,
    in the same order, on whatever page the first call ran. *)
Theorem ensureLibs_again :
  forall (opts : libs_opts) (pg : page),
    ensureLibs opts (snd (ensureLibs opts pg))
    = (fst (ensureLibs opts pg), snd (ensureLibs opts pg)).
Proof.
  intros opts pg. unfold ensureLibs.
  set (pg0 := ensureLeafletCss pg).
  pose proof (@loadScriptOnce_again leaflet_js "leaflet" pg0) as H1.
  destruct (loadScriptOnce leaflet_js "leaflet" pg0) as [p1 pg1] eqn:E1.
  assert (Hlinks : forall url key pg, leaflet_links (snd (loadScriptOnce url key pg))
                                      = leaflet_links pg).
  { intros url key pg'. unfold loadScriptOnce.
    now destruct (cached key (_scriptCache pg')). }
  assert (H0 : (0 <? leaflet_links pg0)%nat = true).
  { subst pg0. unfold ensureLeafletCss.
    destruct (0 <? leaflet_links pg)%nat eqn:E; [exact E|reflexivity]. }
  assert (Hl1 : (0 <? leaflet_links pg1)%nat = true).
  { replace pg1 with (snd (loadScriptOnce leaflet_js "leaflet" pg0)) by now rewrite E1.
    now rewrite Hlinks. }
  destruct (not_false (wantsGPX opts)) eqn:Eg;
    destruct (not_false (wantsChart opts)) eqn:Ec.
  - pose proof (@loadScriptOnce_again leaflet_gpx_js "leaflet-gpx" pg1) as H2.
    pose proof (@loadScriptOnce_other leaflet_gpx_js "leaflet-gpx" "leaflet" pg1 p1 H1) as H12.
    pose proof (Hlinks leaflet_gpx_js "leaflet-gpx"%string pg1) as Hl2.
    destruct (loadScriptOnce leaflet_gpx_js "leaflet-gpx" pg1) as [p2 pg2].
    cbn [snd] in H12, Hl2.
    pose proof (@loadScriptOnce_again chart_js "chart" pg2) as H3.
    pose proof (@loadScriptOnce_other chart_js "chart" "leaflet" pg2 p1 H12) as H13.
    pose proof (@loadScriptOnce_other chart_js "chart" "leaflet-gpx" pg2 p2 H2) as H23.
    pose proof (Hlinks chart_js "chart"%string pg2) as Hl3.
    destruct (loadScriptOnce chart_js "chart" pg2) as [p3 pg3].
    cbn [snd fst] in *.
    unfold ensureLeafletCss.
    rewrite Hl3, Hl2, Hl1.
    rewrite (loadScriptOnce_cached leaflet_js _ _ H13).
    rewrite (loadScriptOnce_cached leaflet_gpx_js _ _ H23).
    now rewrite (loadScriptOnce_cached chart_js _ _ H3).
  - pose proof (@loadScriptOnce_again leaflet_gpx_js "leaflet-gpx" pg1) as H2.
    pose proof (@loadScriptOnce_other leaflet_gpx_js "leaflet-gpx" "leaflet" pg1 p1 H1) as H12.
    pose proof (Hlinks leaflet_gpx_js "leaflet-gpx"%string pg1) as Hl2.
    destruct (loadScriptOnce leaflet_gpx_js "leaflet-gpx" pg1) as [p2 pg2].
    cbn [snd fst] in *.
    unfold ensureLeafletCss.
    rewrite Hl2, Hl1.
    rewrite (loadScriptOnce_cached leaflet_js _ _ H12).
    now rewrite (loadScriptOnce_cached leaflet_gpx_js _ _ H2).
  - pose proof (@loadScriptOnce_again chart_js "chart" pg1) as H3.
    pose proof (@loadScriptOnce_other chart_js "chart" "leaflet" pg1 p1 H1) as H13.
    pose proof (Hlinks chart_js "chart"%string pg1) as Hl3.
    destruct (loadScriptOnce chart_js "chart" pg1) as [p3 pg3].
    cbn [snd fst] in *.
    unfold ensureLeafletCss.
    rewrite Hl3, Hl1.
    rewrite (loadScriptOnce_cached leaflet_js _ _ H13).
    now rewrite (loadScriptOnce_cached chart_js _ _ H3).
  - cbn [snd fst].
    unfold ensureLeafletCss.
    rewrite Hl1.
    now rewrite (loadScriptOnce_cached leaflet_js _ _ H1).
Qed.

Lemma loadScriptOnce_scripts (url key : string) (pg : page) (u : string) :
  In (key, url) libs -> page_ok pg ->
  (In u (scripts (snd (loadScriptOnce url key pg))) <-> In u (scripts pg) \/ u = url).
Proof.
  intros Hin (Hcache & _ & _). specialize (Hcache key url Hin).
  unfold loadScriptOnce.
  destruct (cached key (_scriptCache pg)) as [p|]; cbn [snd scripts].
  - apply nth_error_In in Hcache. split; [tauto|]. intros [H | ->]; assumption.
  - rewrite in_app_iff. cbn [In]. intuition congruence.
Qed.

Lemma ensureLibs_scripts (opts : libs_opts) (pg : page) (u : string) :
  page_ok pg ->
  (In u (scripts (snd (ensureLibs opts pg)))
   <-> In u (scripts pg) \/ u = leaflet_js
       \/ (not_false (wantsGPX opts) = true /\ u = leaflet_gpx_js)
       \/ (not_false (wantsChart opts) = true /\ u = chart_js)).
Proof.
  intros Hok. unfold ensureLibs.
  assert (H0 : page_ok (ensureLeafletCss pg)).
  { unfold ensureLeafletCss. now destruct (0 <? leaflet_links pg)%nat. }
  assert (E0 : scripts (ensureLeafletCss pg) = scripts pg).
  { unfold ensureLeafletCss. now destruct (0 <? leaflet_links pg)%nat. }
  rewrite <- E0. clear E0.
  pose proof (@loadScriptOnce_ok leaflet_js "leaflet" _ ltac:(cbn; auto) H0) as H1.
  pose proof (fun v => @loadScriptOnce_scripts leaflet_js "leaflet" _ v ltac:(cbn; auto) H0) as S1.
  destruct (loadScriptOnce leaflet_js "leaflet" (ensureLeafletCss pg)) as [p1 pg1].
  cbn [snd] in H1, S1.
  destruct (not_false (wantsGPX opts)); destruct (not_false (wantsChart opts)).
  - pose proof (@loadScriptOnce_ok leaflet_gpx_js "leaflet-gpx" _ ltac:(cbn; auto) H1) as H2.
    pose proof (fun v => @loadScriptOnce_scripts leaflet_gpx_js "leaflet-gpx" _ v ltac:(cbn; auto) H1) as S2.
    destruct (loadScriptOnce leaflet_gpx_js "leaflet-gpx" pg1) as [p2 pg2].
    cbn [snd] in H2, S2.
    pose proof (fun v => @loadScriptOnce_scripts chart_js "chart" _ v ltac:(cbn; auto) H2) as S3.
    destruct (loadScriptOnce chart_js "chart" pg2) as [p3 pg3].
    cbn [snd] in S3 |- *. rewrite S3, S2, S1. intuition congruence.
  - pose proof (fun v => @loadScriptOnce_scripts leaflet_gpx_js "leaflet-gpx" _ v ltac:(cbn; auto) H1) as S2.
    destruct (loadScriptOnce leaflet_gpx_js "leaflet-gpx" pg1) as [p2 pg2].
    cbn [snd] in S2 |- *. rewrite S2, S1. intuition congruence.
  - pose proof (fun v => @loadScriptOnce_scripts chart_js "chart" _ v ltac:(cbn; auto) H1) as S3.
    destruct (loadScriptOnce chart_js "chart" pg1) as [p3 pg3].
    cbn [snd] in S3 |- *. rewrite S3, S1. intuition congruence.
  - cbn [snd]. rewrite S1. intuition congruence.
Qed.

Lemma ensureLibs_all_scripts (calls : list libs_opts) (pg : page) (u : string) :
  page_ok pg ->
  (In u (scripts (ensureLibs_all calls pg))
   <-> In u (scripts pg)
       \/ (calls <> [] /\ u = leaflet_js)
       \/ ((exists c, In c calls /\ not_false (wantsGPX c) = true) /\ u = leaflet_gpx_js)
       \/ ((exists c, In c calls /\ not_false (wantsChart c) = true) /\ u = chart_js)).
Proof.
  revert pg. induction calls as [|c calls IH]; intros pg Hok.
  - cbn [ensureLibs_all fold_left]. split; [tauto|].
    intros [H | [[H _] | [[(c & [] & _) _] | [(c & [] & _) _]]]]; [exact H|congruence].
  - change (ensureLibs_all (c :: calls) pg)
      with (ensureLibs_all calls (snd (ensureLibs c pg))).
    rewrite (IH _ (ensureLibs_ok c Hok)), (ensureLibs_scripts c u Hok).
    split.
    + intros [[H | [H | [[H ->] | [H ->]]]] | [[_ H] | [[(c' & Hc' & H') H] | [(c' & Hc' & H') H]]]].
      * now left.
      * right. left. split; [discriminate|exact H].
      * right. right. left. split; [|reflexivity]. exists c. split; [now left|exact H].
      * right. right. right. split; [|reflexivity]. exists c. split; [now left|exact H].
      * right. left. split; [discriminate|exact H].
      * right. right. left. split; [|exact H]. exists c'. split; [now right|exact H'].
      * right. right. right. split; [|exact H]. exists c'. split; [now right|exact H'].
    + intros [H | [[_ H] | [[(c' & [<- | Hc'] & H') H] | [(c' & [<- | Hc'] & H') H]]]].
      * left. now left.
      * left. right. now left.
      * left. right. right. left. now split.
      * right. right. left. split; [|exact H]. now exists c'.
      * left. right. right. right. now split.
      * right. right. right. split; [|exact H]. now exists c'.
Qed.

(** X17.  After the calls of [ensureLibs] of a page, the script of Leaflet is
    in the page when there was a call, the script of leaflet-gpx when a call
    did not set [wantsGPX] to [false], the script of Chart.js when a call did
    not set [wantsChart] to [false]; no other script is in the page. *)
Theorem libraries_loaded_when_wanted :
  forall (links : nat) (calls : list libs_opts) (u : string),
    In u (scripts (ensureLibs_all calls (fresh_page links)))
    <-> (calls <> [] /\ u = leaflet_js)
        \/ ((exists c, In c calls /\ wantsGPX c <> Some false) /\ u = leaflet_gpx_js)
        \/ ((exists c, In c calls /\ wantsChart c <> Some false) /\ u = chart_js).
Proof.
  intros links calls u.
  assert (Hok : page_ok (fresh_page links)).
  { repeat split.
    - intros key url _. cbn. tauto.
    - constructor.
    - intros v []. }
  rewrite (ensureLibs_all_scripts calls u Hok). cbn [fresh_page scripts In].
  assert (Hnf : forall v, not_false v = true <-> v <> Some false).
  { intros [[|]|]; cbn; split; congruence. }
  split.
  - intros [[] | [H | [[(c & Hc & H) E] | [(c & Hc & H) E]]]].
    + now left.
    + right. left. split; [|exact E]. exists c. split; [exact Hc|now apply Hnf].
    + right. right. split; [|exact E]. exists c. split; [exact Hc|now apply Hnf].
  - intros [H | [[(c & Hc & H) E] | [(c & Hc & H) E]]].
    + right. now left.
    + right. right. left. split; [|exact E]. exists c. split; [exact Hc|now apply Hnf].
    + right. right. right. split; [|exact E]. exists c. split; [exact Hc|now apply Hnf].
Qed.

Lemma ensureLibs_links (opts : libs_opts) (pg : page) :
  leaflet_links (snd (ensureLibs opts pg)) = Nat.max 1 (leaflet_links pg).
Proof.
  unfold ensureLibs.
  assert (Hl : forall url key pg, leaflet_links (snd (loadScriptOnce url key pg))
                                  = leaflet_links pg).
  { intros url key pg'. unfold loadScriptOnce.
    now destruct (cached key (_scriptCache pg')). }
  assert (H0 : leaflet_links (ensureLeafletCss pg) = Nat.max 1 (leaflet_links pg)).
  { unfold ensureLeafletCss. destruct (0 <? leaflet_links pg)%nat eqn:E.
    - apply Nat.ltb_lt in E. lia.
    - apply Nat.ltb_ge in E. cbn [leaflet_links]. lia. }
  rewrite <- H0.
  pose proof (Hl leaflet_js "leaflet"%string (ensureLeafletCss pg)) as H1.
  destruct (loadScriptOnce leaflet_js "leaflet" (ensureLeafletCss pg)) as [p1 pg1].
  cbn [snd] in H1. rewrite <- H1.
  destruct (not_false (wantsGPX opts)); destruct (not_false (wantsChart opts)).
  - pose proof (Hl leaflet_gpx_js "leaflet-gpx"%string pg1) as H2.
    destruct (loadScriptOnce leaflet_gpx_js "leaflet-gpx" pg1) as [p2 pg2].
    pose proof (Hl chart_js "chart"%string pg2) as H3.
    destruct (loadScriptOnce chart_js "chart" pg2) as [p3 pg3].
    cbn [snd] in *. congruence.
  - pose proof (Hl leaflet_gpx_js "leaflet-gpx"%string pg1) as H2.
    destruct (loadScriptOnce leaflet_gpx_js "leaflet-gpx" pg1) as [p2 pg2].
    cbn [snd] in *. congruence.
  - pose proof (Hl chart_js "chart"%string pg1) as H3.
    destruct (loadScriptOnce chart_js "chart" pg1) as [p3 pg3].
    cbn [snd] in *. congruence.
  - reflexivity.
Qed.

(** X18.  The Leaflet stylesheet is linked once: after one call of
    [ensureLibs] or after many, a page that had no such link has one, and a
    page that had some has as many as before. *)
Theorem stylesheet_linked_once :
  forall (pg : page) (c : libs_opts) (calls : list libs_opts),
    leaflet_links (ensureLibs_all (c :: calls) pg) = Nat.max 1 (leaflet_links pg).
Proof.
  intros pg c calls. revert pg c.
  induction calls as [|c' calls IH]; intros pg c.
  - apply ensureLibs_links.
  - change (ensureLibs_all (c :: c' :: calls) pg)
      with (ensureLibs_all (c' :: calls) (snd (ensureLibs c pg))).
    rewrite IH, ensureLibs_links. lia.
Qed.

(** ** The groups of months and the season bands *)

Section MonthFacts.

Local Open Scope Z_scope.

Lemma distinct_In (nums seen : list Z) (v : Z) :
  In v (distinct seen nums) <-> In v nums /\ ~ In v seen.
Proof.
  revert seen. induction nums as [|n rest IH]; intros seen; cbn [distinct].
  - cbn. tauto.
  - destruct (existsb (Z.eqb n) seen) eqn:E.
    + apply existsb_exists in E. destruct E as (u & Hu & Eu).
      apply Z.eqb_eq in Eu. subst u.
      rewrite IH. cbn [In]. split; [tauto|].
      intros [[-> | H] Hs]; [contradiction|tauto].
    + assert (Hn : ~ In n seen).
      { intros Hn. apply Bool.not_true_iff_false in E. apply E.
        apply existsb_exists. exists n. split; [exact Hn|apply Z.eqb_refl]. }
      cbn [In]. rewrite IH. cbn [In].
      destruct (Z.eq_dec n v) as [-> | Hne]; [tauto|].
      split; [tauto|]. intros [[H | H] Hs]; [contradiction|]. right.
      split; [exact H|]. intros [H' | H']; tauto.
Qed.

Lemma distinct_NoDup (nums seen : list Z) : NoDup (distinct seen nums).
Proof.
  revert seen. induction nums as [|n rest IH]; intros seen; cbn [distinct].
  - constructor.
  - destruct (existsb (Z.eqb n) seen); [apply IH|].
    constructor; [|apply IH].
    rewrite distinct_In. cbn [In]. tauto.
Qed.

Lemma insert_In (a v : Z) (l : list Z) : In v (insert a l) <-> v = a \/ In v l.
Proof.
  induction l as [|b rest IH]; cbn [insert].
  - cbn. intuition congruence.
  - destruct (a <=? b); cbn [In]; [intuition congruence|].
    rewrite IH. intuition congruence.
Qed.

Lemma sort_ascending_In (l : list Z) (v : Z) : In v (sort_ascending l) <-> In v l.
Proof.
  induction l as [|a rest IH]; cbn [sort_ascending fold_right]; [tauto|].
  rewrite insert_In. fold (sort_ascending rest). rewrite IH. cbn [In].
  intuition congruence.
Qed.

Lemma increasing_tail (a : Z) (l : list Z) : increasing (a :: l) -> increasing l.
Proof. destruct l; cbn; tauto. Qed.

Lemma increasing_lower (a : Z) (l : list Z) :
  increasing (a :: l) -> forall v, In v l -> a < v.
Proof.
  revert a. induction l as [|b rest IH]; intros a H v Hv; [destruct Hv|].
  destruct H as [Hab H]. destruct Hv as [<- | Hv]; [exact Hab|].
  specialize (IH b H v Hv). lia.
Qed.

Lemma increasing_cons (a : Z) (l : list Z) :
  (forall v, In v l -> a < v) -> increasing l -> increasing (a :: l).
Proof.
  destruct l as [|b rest]; [cbn; tauto|].
  intros H Hl. split; [apply H; now left|exact Hl].
Qed.

Lemma increasing_NoDup (l : list Z) : increasing l -> NoDup l.
Proof.
  induction l as [|a rest IH]; intros H; constructor.
  - intros Ha. pose proof (increasing_lower _ _ H a Ha). lia.
  - apply IH. exact (increasing_tail _ _ H).
Qed.

Lemma insert_increasing (a : Z) (l : list Z) :
  increasing l -> ~ In a l -> increasing (insert a l).
Proof.
  induction l as [|b rest IH]; intros Hl Ha; cbn [insert]; [exact I|].
  destruct (a <=? b) eqn:E.
  - apply Z.leb_le in E. split; [|exact Hl].
    assert (a <> b) by (intros ->; apply Ha; now left). lia.
  - apply Z.leb_gt in E. apply increasing_cons.
    + intros v Hv. apply insert_In in Hv. destruct Hv as [-> | Hv]; [exact E|].
      exact (increasing_lower _ _ Hl v Hv).
    + apply IH; [exact (increasing_tail _ _ Hl)|].
      intros H. apply Ha. now right.
Qed.

Lemma sort_ascending_increasing (l : list Z) : NoDup l -> increasing (sort_ascending l).
Proof.
  induction l as [|a rest IH]; intros H; [exact I|].
  cbn [sort_ascending fold_right]. fold (sort_ascending rest).
  inversion H as [|? ? Ha Hrest]; subst.
  apply insert_increasing; [now apply IH|].
  now rewrite sort_ascending_In.
Qed.

(* an increasing list is known by its values *)
Lemma increasing_unique (l l' : list Z) :
  increasing l -> increasing l' -> (forall v, In v l <-> In v l') -> l = l'.
Proof.
  revert l'. induction l as [|a rest IH]; intros [|a' rest'] Hl Hl' Hin.
  - reflexivity.
  - exfalso. apply (Hin a'). now left.
  - exfalso. apply (Hin a). now left.
  - assert (a = a').
    { pose proof (proj1 (Hin a) (or_introl eq_refl)) as H1.
      pose proof (proj2 (Hin a') (or_introl eq_refl)) as H2.
      destruct H1 as [H1 | H1]; [now symmetry|].
      destruct H2 as [H2 | H2]; [exact H2|].
      pose proof (increasing_lower _ _ Hl a' H2).
      pose proof (increasing_lower _ _ Hl' a H1). lia. }
    subst a'. f_equal.
    apply IH; [exact (increasing_tail _ _ Hl)|exact (increasing_tail _ _ Hl')|].
    intros v. split; intros Hv.
    + pose proof (increasing_lower _ _ Hl v Hv).
      destruct (proj1 (Hin v) (or_intror Hv)) as [-> | H']; [lia|exact H'].
    + pose proof (increasing_lower _ _ Hl' v Hv).
      destruct (proj2 (Hin v) (or_intror Hv)) as [-> | H']; [lia|exact H'].
Qed.

(* [arr], the months in ascending order, each once *)
Lemma arr_In (nums : list Z) (v : Z) :
  In v (sort_ascending (distinct [] nums)) <-> In v nums.
Proof. rewrite sort_ascending_In, distinct_In. cbn. tauto. Qed.

Lemma arr_increasing (nums : list Z) : increasing (sort_ascending (distinct [] nums)).
Proof. apply sort_ascending_increasing, distinct_NoDup. Qed.

Lemma arr_same (nums nums' : list Z) :
  (forall v, In v nums <-> In v nums') ->
  sort_ascending (distinct [] nums) = sort_ascending (distinct [] nums').
Proof.
  intros H. apply increasing_unique; try apply arr_increasing.
  intros v. now rewrite !arr_In.
Qed.

Lemma group_loop_prefix (rest : list Z) (prev : Z) (cur : list Z) (groups : list (list Z)) :
  group_loop prev cur groups rest = groups ++ group_loop prev cur [] rest.
Proof.
  revert prev cur groups. induction rest as [|a rest IH]; intros prev cur groups.
  - reflexivity.
  - cbn [group_loop]. destruct (a =? prev + 1); [apply IH|].
    rewrite (IH a [a] (groups ++ [cur])), (IH a [a] ([] ++ [cur])).
    now rewrite <- app_assoc.
Qed.

Lemma group_loop_concat (rest : list Z) (prev : Z) (cur : list Z) (groups : list (list Z)) :
  concat (group_loop prev cur groups rest) = concat groups ++ cur ++ rest.
Proof.
  revert prev cur groups. induction rest as [|a rest IH]; intros prev cur groups.
  - cbn [group_loop]. rewrite concat_app. cbn [concat]. now rewrite !app_nil_r.
  - cbn [group_loop]. destruct (a =? prev + 1); rewrite IH.
    + now rewrite <- app_assoc.
    + rewrite concat_app. cbn [concat]. rewrite app_nil_r.
      now rewrite <- app_assoc.
Qed.

Lemma group_loop_first (rest : list Z) (prev : Z) (cur : list Z) :
  exists more groups', group_loop prev cur [] rest = (cur ++ more) :: groups'.
Proof.
  revert prev cur. induction rest as [|a rest IH]; intros prev cur.
  - exists [], []. cbn. now rewrite app_nil_r.
  - cbn [group_loop]. destruct (a =? prev + 1).
    + destruct (IH a (cur ++ [a])) as (more & groups' & E).
      exists (a :: more), groups'. rewrite E. now rewrite <- app_assoc.
    + rewrite group_loop_prefix. exists [], (group_loop a [a] [] rest).
      cbn. now rewrite app_nil_r.
Qed.

Lemma consecutive_app (l l2 : list Z) (p : Z) :
  consecutive (l ++ [p]) -> consecutive (p :: l2) -> consecutive (l ++ p :: l2).
Proof.
  induction l as [|x l IH]; intros H1 H2; [exact H2|].
  destruct l as [|y l].
  - cbn in H1. cbn [app]. split; [tauto|exact H2].
  - destruct H1 as [Hy H1]. split; [exact Hy|]. apply IH; assumption.
Qed.

Lemma consecutive_tail (a : Z) (l : list Z) : consecutive (a :: l) -> consecutive l.
Proof. destruct l; cbn; tauto. Qed.

Lemma consecutive_In (t : list Z) (s v : Z) :
  consecutive (s :: t) ->
  (In v (s :: t) <-> s <= v < s + Z.of_nat (length (s :: t))).
Proof.
  revert s. induction t as [|y t IH]; intros s H.
  - cbn. lia.
  - destruct H as [-> H]. specialize (IH _ H).
    change (In v (s :: s + 1 :: t)) with (s = v \/ In v (s + 1 :: t)).
    rewrite IH. cbn [length]. lia.
Qed.

Lemma consecutive_last (t : list Z) (s d : Z) :
  consecutive (s :: t) -> last (s :: t) d = s + Z.of_nat (length t).
Proof.
  revert s. induction t as [|y t IH]; intros s H.
  - cbn. lia.
  - destruct H as [-> H]. specialize (IH _ H).
    change (last (s :: s + 1 :: t) d) with (last (s + 1 :: t) d).
    rewrite IH. cbn [length]. lia.
Qed.

(* every group the loop leaves holds a month, and its months are consecutive *)
Lemma group_loop_groups (rest : list Z) (prev : Z) (c : list Z) (groups : list (list Z)) :
  Forall (fun g => g <> [] /\ consecutive g) groups ->
  consecutive (c ++ [prev]) ->
  Forall (fun g => g <> [] /\ consecutive g) (group_loop prev (c ++ [prev]) groups rest).
Proof.
  revert prev c groups. induction rest as [|a rest IH]; intros prev c groups Hg Hc.
  - cbn [group_loop]. apply Forall_app. split; [exact Hg|].
    constructor; [|constructor]. split; [now destruct c|exact Hc].
  - cbn [group_loop]. destruct (a =? prev + 1) eqn:E.
    + apply Z.eqb_eq in E. apply IH; [exact Hg|].
      rewrite <- app_assoc. cbn [app]. apply consecutive_app; [exact Hc|].
      cbn. tauto.
    + apply (IH a [] (groups ++ [c ++ [prev]])); [|exact I].
      apply Forall_app. split; [exact Hg|].
      constructor; [|constructor]. split; [now destruct c|exact Hc].
Qed.

Lemma pop_None (A : Type) (l : list A) : pop l = None -> l = [].
Proof.
  destruct l as [|a r]; [reflexivity|]. cbn [pop].
  destruct (pop r) as [[r' z]|]; discriminate.
Qed.

Lemma pop_Some (A : Type) (l r : list A) (z : A) : pop l = Some (r, z) -> l = r ++ [z].
Proof.
  revert r. induction l as [|a l IH]; intros r H; [discriminate|].
  cbn [pop] in H. destruct (pop l) as [[r' z']|] eqn:E.
  - injection H as <- <-. cbn [app]. f_equal. now apply IH.
  - injection H as <- <-. apply pop_None in E. now subst l.
Qed.

Lemma last_app_nonempty (l1 l2 : list Z) (d : Z) :
  l2 <> [] -> last (l1 ++ l2) d = last l2 d.
Proof.
  intros H. induction l1 as [|a l1 IH]; [reflexivity|].
  cbn [app]. destruct (l1 ++ l2) eqn:E.
  - apply app_eq_nil in E. tauto.
  - rewrite <- IH. reflexivity.
Qed.

(* what the function computes on an array that holds a value *)
Lemma groupConsecutiveMonths_eq (nums : list Z) :
  nums <> [] ->
  exists a0 rest,
    sort_ascending (distinct [] nums) = a0 :: rest /\
    groupConsecutiveMonths (Some nums)
    = wrap_join (a0 :: rest) (group_loop a0 [a0] [] rest).
Proof.
  intros Hne. destruct nums as [|n ns]; [congruence|].
  unfold groupConsecutiveMonths.
  destruct (sort_ascending (distinct [] (n :: ns))) as [|a0 rest] eqn:E.
  - exfalso. assert (H : In n (sort_ascending (distinct [] (n :: ns)))).
    { apply arr_In. now left. }
    now rewrite E in H.
  - exists a0, rest. split; reflexivity.
Qed.

(* the groups the loop leaves, from [arr] *)
Lemma groups_of_arr (a0 : Z) (rest : list Z) :
  let groups := group_loop a0 [a0] [] rest in
  concat groups = a0 :: rest /\
  Forall (fun g => g <> [] /\ consecutive g) groups /\
  exists more groups', groups = (a0 :: more) :: groups'.
Proof.
  intros groups. subst groups. split; [|split].
  - now rewrite group_loop_concat.
  - apply (@group_loop_groups rest a0 [] []); [constructor|exact I].
  - destruct (group_loop_first rest a0 [a0]) as (more & groups' & E).
    now exists more, groups'.
Qed.

Lemma increasing_upper (l : list Z) (v d : Z) :
  increasing l -> In v l -> v <= last l d.
Proof.
  revert v. induction l as [|a l IH]; intros v H Hv; [destruct Hv|].
  destruct l as [|b l].
  - destruct Hv as [<- | []]. cbn. lia.
  - change (last (a :: b :: l) d) with (last (b :: l) d).
    destruct Hv as [<- | Hv].
    + destruct H as [Hab H]. specialize (IH b H (or_introl eq_refl)). lia.
    + apply IH; [exact (increasing_tail _ _ H)|exact Hv].
Qed.

Lemma increasing_app (l1 l2 : list Z) :
  increasing (l1 ++ l2) ->
  increasing l1 /\ increasing l2 /\ forall u v, In u l1 -> In v l2 -> u < v.
Proof.
  induction l1 as [|a l1 IH]; intros H.
  - cbn in *. tauto.
  - cbn [app] in H. destruct (IH (increasing_tail _ _ H)) as (H1 & H2 & H12).
    split; [|split; [exact H2|]].
    + apply increasing_cons; [|exact H1].
      intros v Hv. apply (increasing_lower _ _ H). apply in_or_app. now left.
    + intros u v [<- | Hu] Hv.
      * apply (increasing_lower _ _ H). apply in_or_app. now right.
      * now apply H12.
Qed.

Lemma apart_app (G1 G2 : list (list Z)) :
  apart G1 -> apart G2 ->
  (forall g v, In g G1 -> In v (concat G2) -> last g 0 + 1 < v) ->
  apart (G1 ++ G2).
Proof.
  induction G1 as [|g G1 IH]; intros H1 H2 H12; [exact H2|].
  destruct H1 as [Hg H1]. cbn [app apart]. split.
  - intros v Hv. rewrite concat_app in Hv. apply in_app_or in Hv.
    destruct Hv as [Hv | Hv]; [now apply Hg|].
    apply (H12 g v); [now left|exact Hv].
  - apply IH; [exact H1|exact H2|].
    intros g' v Hg' Hv. apply (H12 g' v); [now right|exact Hv].
Qed.

Lemma group_loop_apart (rest : list Z) (prev : Z) (c : list Z) (groups : list (list Z)) :
  increasing (prev :: rest) ->
  apart groups ->
  (forall g v, In g groups -> In v ((c ++ [prev]) ++ rest) -> last g 0 + 1 < v) ->
  apart (group_loop prev (c ++ [prev]) groups rest).
Proof.
  revert prev c groups. induction rest as [|a rest IH]; intros prev c groups Hinc Hap Hlater.
  - cbn [group_loop]. apply apart_app; [exact Hap|cbn; tauto|].
    intros g v Hg Hv. cbn [concat] in Hv. apply (Hlater g v Hg).
    now rewrite app_nil_r in *.
  - cbn [group_loop]. destruct (a =? prev + 1) eqn:E.
    + apply IH; [exact (increasing_tail _ _ Hinc)|exact Hap|].
      intros g v Hg Hv. apply (Hlater g v Hg).
      rewrite <- app_assoc in Hv. exact Hv.
    + apply Z.eqb_neq in E.
      apply (IH a [] (groups ++ [c ++ [prev]]));
        [exact (increasing_tail _ _ Hinc)| |].
      * apply apart_app; [exact Hap|cbn; tauto|].
        intros g v Hg Hv. cbn [concat] in Hv. rewrite app_nil_r in Hv.
        apply (Hlater g v Hg). apply in_or_app. now left.
      * intros g v Hg Hv. cbn [app] in Hv. apply in_app_or in Hg.
        destruct Hg as [Hg | [<- | []]].
        -- apply (Hlater g v Hg). apply in_or_app. now right.
        -- rewrite last_last.
           assert (prev < a) by (destruct Hinc; lia).
           destruct Hv as [<- | Hv]; [lia|].
           pose proof (increasing_lower _ _ (increasing_tail _ _ Hinc) v Hv). lia.
Qed.

Lemma groups_apart (a0 : Z) (rest : list Z) :
  increasing (a0 :: rest) -> apart (group_loop a0 [a0] [] rest).
Proof.
  intros H. apply (@group_loop_apart rest a0 [] []); [exact H|exact I|].
  intros g v [].
Qed.

(* the month after the last of a group is no month of [arr] *)
Lemma apart_next (G1 G2 : list (list Z)) (g : list Z) :
  increasing (concat (G1 ++ g :: G2)) -> apart (G1 ++ g :: G2) -> g <> [] ->
  ~ In (last g 0 + 1) (concat (G1 ++ g :: G2)).
Proof.
  intros Hinc Hap Hg Hin.
  rewrite concat_app in Hinc, Hin. cbn [concat] in Hinc, Hin.
  destruct (increasing_app _ _ Hinc) as (_ & Hinc2 & H12).
  destruct (increasing_app _ _ Hinc2) as (Hincg & _ & _).
  assert (Hlast : In (last g 0) g).
  { destruct g as [|x g]; [congruence|].
    destruct (exists_last (l := x :: g) ltac:(discriminate)) as (g' & z & E).
    rewrite E, last_last. apply in_or_app. right. now left. }
  assert (Hap2 : forall v, In v (concat G2) -> last g 0 + 1 < v).
  { clear - Hap. induction G1 as [|g1 G1 IH]; [exact (proj1 Hap)|].
    apply IH. exact (proj2 Hap). }
  apply in_app_or in Hin. destruct Hin as [Hin | Hin].
  - assert (last g 0 + 1 < last g 0); [|lia].
    apply H12; [exact Hin|]. apply in_or_app. now left.
  - apply in_app_or in Hin. destruct Hin as [Hin | Hin].
    + pose proof (@increasing_upper g _ 0 Hincg Hin). lia.
    + specialize (Hap2 _ Hin). lia.
Qed.

(* the three ways the wrap join ends *)
Lemma wrap_cases (a0 : Z) (rest : list Z) :
  let arr := a0 :: rest in
  let groups := group_loop a0 [a0] [] rest in
  (~ (a0 = 0 /\ last arr 0 = 11) /\ wrap_join arr groups = Return groups)
  \/ (a0 = 0 /\ last arr 0 = 11 /\ groups = [arr] /\
      wrap_join arr groups = Throw _ "TypeError")
  \/ (a0 = 0 /\ last arr 0 = 11 /\
      exists more mid lastg,
        groups = (0 :: more) :: mid ++ [lastg] /\
        wrap_join arr groups = Return ((lastg ++ 0 :: more) :: mid)).
Proof.
  intros arr groups.
  destruct (groups_of_arr a0 rest) as (Hcat & _ & more & groups' & E).
  fold groups in Hcat, E. fold arr in Hcat.
  subst arr. cbv beta iota delta [wrap_join].
  destruct (a0 =? 0) eqn:E0; cbn [andb].
  2:{ left. apply Z.eqb_neq in E0. split; [tauto|reflexivity]. }
  destruct (last (a0 :: rest) 0 =? 11) eqn:E11.
  2:{ left. apply Z.eqb_neq in E11. split; [tauto|reflexivity]. }
  apply Z.eqb_eq in E0, E11. right. rewrite E.
  destruct (pop groups') as [[mid lastg]|] eqn:Ep.
  - right. apply pop_Some in Ep. subst groups' a0.
    repeat split; try assumption. now exists more, mid, lastg.
  - left. apply pop_None in Ep. subst groups'.
    repeat split; try assumption.
    rewrite E in Hcat. cbn [concat] in Hcat. rewrite app_nil_r in Hcat.
    now rewrite Hcat.
Qed.

(** X19.  [groupConsecutiveMonths] throws exactly on the arrays that hold
    every month of the year, [0] to [11], and nothing else: the twelve months
    are one group, which [shift] takes, and [pop] has nothing left to give. *)
Theorem all_year_throws :
  forall nums : list Z,
    (exists msg, groupConsecutiveMonths (Some nums) = Throw _ msg)
    <-> (forall m, In m nums <-> 0 <= m <= 11).
Proof.
  intros nums. split.
  - intros [msg H].
    destruct nums as [|n ns]; [discriminate|].
    destruct (@groupConsecutiveMonths_eq (n :: ns) ltac:(discriminate))
      as (a0 & rest & Earr & Eg).
    rewrite Eg in H.
    destruct (groups_of_arr a0 rest) as (_ & Hgood & _).
    destruct (wrap_cases a0 rest) as [[_ Hw] | [(H0 & H11 & HG & _) | (_ & _ & more & mid & lastg & _ & Hw)]];
      [rewrite Hw in H; discriminate| |rewrite Hw in H; discriminate].
    cbv zeta in Hgood. rewrite HG in Hgood.
    apply Forall_inv in Hgood. destruct Hgood as [_ Hcons].
    intros m. rewrite <- (arr_In (n :: ns)), Earr.
    rewrite (@consecutive_In rest a0 m Hcons).
    rewrite (@consecutive_last rest a0 0 Hcons) in H11.
    cbn [length]. lia.
  - intros H.
    assert (Hne : nums <> []).
    { intros ->. apply (H 0). lia. }
    destruct (groupConsecutiveMonths_eq Hne) as (a0 & rest & Earr & Eg).
    assert (E : sort_ascending (distinct [] nums) = [0; 1; 2; 3; 4; 5; 6; 7; 8; 9; 10; 11]).
    { apply increasing_unique; [apply arr_increasing|cbn; lia|].
      intros m. rewrite arr_In, H. cbn [In]. lia. }
    rewrite E in Earr. injection Earr as <- <-.
    exists "TypeError"%string. rewrite Eg. reflexivity.
Qed.

(* The groups that are returned, from the groups [G] the loop leaves. *)
Lemma groups_structure (nums : list Z) (groups : list (list Z)) :
  nums <> [] ->
  groupConsecutiveMonths (Some nums) = Return groups ->
  let arr := sort_ascending (distinct [] nums) in
  exists G,
    concat G = arr /\
    Forall (fun g => g <> [] /\ consecutive g) G /\
    apart G /\
    ((~ (hd 0 arr = 0 /\ last arr 0 = 11) /\ groups = G)
     \/ (last arr 0 = 11 /\
         exists more mid lastg,
           G = (0 :: more) :: mid ++ [lastg] /\
           groups = (lastg ++ 0 :: more) :: mid)).
Proof.
  intros Hne H arr.
  destruct (groupConsecutiveMonths_eq Hne) as (a0 & rest & Earr & Eg).
  rewrite Eg in H. clear Eg.
  pose proof (arr_increasing nums) as Hinc.
  fold arr in Earr, Hinc. rewrite Earr in *. clearbody arr. clear Earr.
  destruct (groups_of_arr a0 rest) as (Hcat & Hgood & _).
  pose proof (groups_apart a0 rest Hinc) as Hap.
  exists (group_loop a0 [a0] [] rest).
  repeat (split; [assumption|]).
  destruct (wrap_cases a0 rest)
    as [[Hno Hw] | [(_ & _ & _ & Hw) | (H0 & H11 & more & mid & lastg & HG & Hw)]];
    rewrite Hw in H; [|discriminate|].
  - left. injection H as <-. split; [exact Hno|reflexivity].
  - right. injection H as <-. split; [exact H11|].
    now exists more, mid, lastg.
Qed.

(** X20.  The groups [groupConsecutiveMonths] returns hold the months it was
    given, each once, whatever their order and however often they are given;
    no group is empty. *)
Theorem month_groups_partition :
  forall (nums : list Z) (groups : list (list Z)),
    groupConsecutiveMonths (Some nums) = Return groups ->
    Forall (fun g => g <> []) groups /\
    NoDup (concat groups) /\
    (forall m, In m (concat groups) <-> In m nums).
Proof.
  intros nums groups H.
  destruct nums as [|n ns].
  { injection H as <-. repeat split; try constructor; intros []. }
  destruct (@groups_structure (n :: ns) groups ltac:(discriminate) H)
    as (G & Hcat & Hgood & _ & Hcase).
  pose proof (increasing_NoDup _ (arr_increasing (n :: ns))) as Hnd.
  rewrite <- Hcat in Hnd.
  assert (Hin : forall m, In m (concat G) <-> In m (n :: ns)).
  { intros m. rewrite Hcat. apply arr_In. }
  clear Hcat.
  destruct Hcase as [[_ ->] | (_ & more & mid & lastg & -> & ->)].
  - repeat split; try assumption; try apply Hin.
    revert Hgood. apply Forall_impl. tauto.
  - cbn [concat] in *. rewrite concat_app in *. cbn [concat] in *.
    rewrite app_nil_r in *.
    apply Forall_inv_tail in Hgood. apply Forall_app in Hgood.
    split; [|split].
    + constructor; [now destruct lastg|].
      destruct Hgood as [Hgood _]. revert Hgood. apply Forall_impl. tauto.
    + apply (NoDup_incl_NoDup Hnd).
      * repeat (rewrite length_app || cbn [length]). lia.
      * intros v Hv. rewrite !in_app_iff in *. cbn [In] in *. tauto.
    + intros m. rewrite <- Hin. repeat (rewrite in_app_iff || cbn [In]).
      tauto.
Qed.

Lemma month_groups_partition_witness :
  groupConsecutiveMonths (Some [0; 11; 5; 3; 4; 4]) = Return [[11; 0]; [3; 4; 5]] /\
  (Forall (fun g => g <> []) [[11; 0]; [3; 4; 5]] /\
   NoDup (concat [[11; 0]; [3; 4; 5]]) /\
   (forall m, In m (concat [[11; 0]; [3; 4; 5]]) <-> In m [0; 11; 5; 3; 4; 4])).
Proof.
  split; [reflexivity|].
  apply (@month_groups_partition [0; 11; 5; 3; 4; 4] [[11; 0]; [3; 4; 5]]).
  reflexivity.
Defined.

Lemma consecutive_in_year_of (l : list Z) : consecutive l -> consecutive_in_year l.
Proof.
  induction l as [|x l IH]; [exact (fun H => H)|].
  destruct l as [|y l]; [exact (fun H => H)|].
  intros [Hy H]. split; [now left|now apply IH].
Qed.

Lemma consecutive_in_year_join (l more : list Z) :
  consecutive (l ++ [11]) -> consecutive (0 :: more) ->
  consecutive_in_year ((l ++ [11]) ++ 0 :: more).
Proof.
  intros H1 H2. induction l as [|x l IH].
  - cbn [app]. split; [now right|now apply consecutive_in_year_of].
  - destruct l as [|y l].
    + cbn in H1. cbn [app]. split; [left; tauto|]. apply IH. exact I.
    + destruct H1 as [Hy H1]. split; [now left|]. now apply IH.
Qed.

Lemma last_of_groups (G : list (list Z)) (g : list Z) (d : Z) :
  g <> [] -> last (concat (G ++ [g])) d = last g d.
Proof.
  intros H. rewrite concat_app. cbn [concat]. rewrite app_nil_r.
  now apply last_app_nonempty.
Qed.

(** X21.  Every group [groupConsecutiveMonths] returns is a run of months
    that follow one another; only in the first group may January follow
    December.  A group ends where the run ends: the whole number after
    its last month is no month that was given. *)
Theorem month_groups_are_runs :
  forall (nums : list Z) (groups : list (list Z)),
    groupConsecutiveMonths (Some nums) = Return groups ->
    consecutive_in_year (hd [] groups) /\
    Forall consecutive (tl groups) /\
    (forall g, In g groups -> ~ In (last g 0 + 1) nums).
Proof.
  intros nums groups H.
  destruct nums as [|n ns].
  { injection H as <-. repeat split; try constructor. intros g []. }
  destruct (@groups_structure (n :: ns) groups ltac:(discriminate) H)
    as (G & Hcat & Hgood & Hap & Hcase).
  pose proof (arr_increasing (n :: ns)) as Hinc.
  assert (Hin : forall m, In m (concat G) <-> In m (n :: ns)).
  { intros m. rewrite Hcat. apply arr_In. }
  rewrite <- Hcat in Hinc, Hcase. clear Hcat.
  assert (Hnext : forall G1 g G2, G = G1 ++ g :: G2 -> ~ In (last g 0 + 1) (n :: ns)).
  { intros G1 g G2 E. rewrite <- Hin. subst G.
    apply apart_next; [exact Hinc|exact Hap|].
    apply Forall_app in Hgood. destruct Hgood as [_ Hgood].
    apply Forall_inv in Hgood. tauto. }
  destruct Hcase as [[_ ->] | (H11 & more & mid & lastg & E & ->)].
  - split; [|split].
    + destruct G as [|g G]; [exact I|]. apply Forall_inv in Hgood.
      apply consecutive_in_year_of. tauto.
    + destruct G as [|g G]; [constructor|]. apply Forall_inv_tail in Hgood.
      revert Hgood. apply Forall_impl. tauto.
    + intros g Hg. destruct (in_split _ _ Hg) as (G1 & G2 & E).
      exact (Hnext G1 g G2 E).
  - pose proof Hgood as Hgood'. rewrite E in Hgood'.
    pose proof (Forall_inv Hgood') as [_ Hfirst].
    apply Forall_inv_tail in Hgood'. apply Forall_app in Hgood'.
    destruct Hgood' as [Hmid Hlast]. apply Forall_inv in Hlast.
    destruct Hlast as [Hne Hlast].
    assert (E11 : last lastg 0 = 11).
    { rewrite <- H11. rewrite E.
      change ((0 :: more) :: mid ++ [lastg]) with (((0 :: more) :: mid) ++ [lastg]).
      symmetry. now apply last_of_groups. }
    cbn [hd tl]. split; [|split].
    + destruct (exists_last Hne) as (l & z & El). subst lastg.
      rewrite last_last in E11. subst z.
      now apply consecutive_in_year_join.
    + revert Hmid. apply Forall_impl. tauto.
    + intros g [<- | Hg].
      * rewrite last_app_nonempty by discriminate.
        apply (Hnext [] (0 :: more) (mid ++ [lastg])). exact E.
      * destruct (in_split _ _ Hg) as (m1 & m2 & Em). subst mid.
        apply (Hnext ((0 :: more) :: m1) g (m2 ++ [lastg])).
        rewrite E. cbn [app]. now rewrite <- app_assoc.
Qed.

Lemma month_groups_are_runs_witness :
  groupConsecutiveMonths (Some [10; 11; 0; 1; 2; 7; 6]) = Return [[10; 11; 0; 1; 2]; [6; 7]] /\
  (consecutive_in_year (hd [] [[10; 11; 0; 1; 2]; [6; 7]]) /\
   Forall consecutive (tl [[10; 11; 0; 1; 2]; [6; 7]]) /\
   (forall g, In g [[10; 11; 0; 1; 2]; [6; 7]] ->
              ~ In (last g 0 + 1) [10; 11; 0; 1; 2; 7; 6])).
Proof.
  split; [reflexivity|].
  apply (@month_groups_are_runs [10; 11; 0; 1; 2; 7; 6] [[10; 11; 0; 1; 2]; [6; 7]]).
  reflexivity.
Defined.

(** X22.  The groups depend on which months are given and on nothing else:
    two arrays that hold the same months, in any order and any number of
    times, give the same result. *)
Theorem month_groups_order_insensitive :
  forall nums nums' : list Z,
    (forall m, In m nums <-> In m nums') ->
    groupConsecutiveMonths (Some nums) = groupConsecutiveMonths (Some nums').
Proof.
  intros nums nums' H.
  destruct nums as [|n ns], nums' as [|n' ns'].
  - reflexivity.
  - exfalso. apply (H n'). now left.
  - exfalso. apply (H n). now left.
  - destruct (@groupConsecutiveMonths_eq (n :: ns) ltac:(discriminate))
      as (a0 & rest & Earr & ->).
    destruct (@groupConsecutiveMonths_eq (n' :: ns') ltac:(discriminate))
      as (a0' & rest' & Earr' & ->).
    rewrite (arr_same _ _ H) in Earr. rewrite Earr' in Earr.
    now injection Earr as -> ->.
Qed.

Lemma month_groups_order_insensitive_witness :
  (forall m, In m [10; 11; 0; 1; 2] <-> In m [2; 1; 0; 11; 10; 10]) /\
  groupConsecutiveMonths (Some [10; 11; 0; 1; 2])
  = groupConsecutiveMonths (Some [2; 1; 0; 11; 10; 10]).
Proof.
  assert (H : forall m, In m [10; 11; 0; 1; 2] <-> In m [2; 1; 0; 11; 10; 10]).
  { intros m. cbn [In]. lia. }
  split; [exact H|].
  exact (@month_groups_order_insensitive [10; 11; 0; 1; 2] [2; 1; 0; 11; 10; 10] H).
Defined.

Lemma last_In (l : list Z) (d : Z) : l <> [] -> In (last l d) l.
Proof.
  intros H. destruct (exists_last H) as (l' & z & ->).
  rewrite last_last. apply in_or_app. right. now left.
Qed.

(* the columns under the rectangle of a group: as many as the group has
   months, from the column of its first month on *)
Lemma shades_band (dx m_t innerH m_l : Z) (fill : string) (s : Z) (t : list Z) (i : Z) :
  0 < dx ->
  (shades m_l dx (season_band dx m_t innerH (xBand m_l dx) fill (s :: t)) i
   <-> s <= i < s + Z.of_nat (length (s :: t))).
Proof.
  intros Hdx. unfold shades, season_band, xBand.
  cbn [rect_x rect_width hd_error option_map].
  set (n := Z.of_nat (length (s :: t))). clearbody n.
  split; intros [H1 H2]; split; nia.
Qed.

Lemma shades_run (dx m_t innerH m_l : Z) (fill : string) (g : list Z) (i : Z) :
  0 < dx -> g <> [] -> consecutive g ->
  (shades m_l dx (season_band dx m_t innerH (xBand m_l dx) fill g) i <-> In i g).
Proof.
  intros Hdx Hne Hg. destruct g as [|s t]; [congruence|].
  rewrite (shades_band m_t innerH m_l fill s t i Hdx).
  now rewrite (@consecutive_In t s i Hg).
Qed.

(* the months of [arr] lie between its first and its last *)
Lemma arr_bounds (a0 : Z) (rest : list Z) (v : Z) :
  increasing (a0 :: rest) -> In v (a0 :: rest) -> a0 <= v <= last (a0 :: rest) 0.
Proof.
  intros Hinc Hv. split.
  - destruct Hv as [<- | Hv]; [lia|].
    pose proof (increasing_lower _ _ Hinc v Hv). lia.
  - exact (@increasing_upper (a0 :: rest) v 0 Hinc Hv).
Qed.

(** X23.  Unless the months given are months of the year with both January
    and December among them, the season bands lie over the columns of
    the months given and over no other column. *)
Theorem season_bands_cover_months :
  forall (dx m_t innerH m_l : Z) (nums : list Z) (fill : string),
    0 < dx ->
    ~ (In 0 nums /\ In 11 nums /\ forall m, In m nums -> 0 <= m <= 11) ->
    exists rects,
      drawSeasonBands dx m_t innerH (xBand m_l dx) (Some nums) fill = Return rects /\
      forall i, (exists r, In r rects /\ shades m_l dx r i) <-> In i nums.
Proof.
  intros dx m_t innerH m_l nums fill Hdx Hno.
  unfold drawSeasonBands.
  destruct nums as [|n ns].
  { exists []. split; [reflexivity|]. intros i. split; [intros (r & [] & _)|intros []]. }
  destruct (@groupConsecutiveMonths_eq (n :: ns) ltac:(discriminate))
    as (a0 & rest & Earr & ->).
  pose proof (arr_increasing (n :: ns)) as Hinc. rewrite Earr in Hinc.
  assert (Hin : forall m, In m (a0 :: rest) <-> In m (n :: ns)).
  { intros m. rewrite <- Earr. apply arr_In. }
  destruct (groups_of_arr a0 rest) as (Hcat & Hgood & _). cbv zeta in Hcat, Hgood.
  destruct (wrap_cases a0 rest)
    as [[_ ->] | [(H0 & H11 & _) | (H0 & H11 & _)]].
  2,3: exfalso; apply Hno; rewrite <- !Hin; repeat split;
       [ left; exact H0
       | rewrite <- H11; apply last_In; discriminate
       | rewrite <- H0; exact (proj1 (arr_bounds Hinc (proj2 (Hin m) H)))
       | rewrite <- H11; exact (proj2 (arr_bounds Hinc (proj2 (Hin m) H))) ].
  eexists. split; [reflexivity|].
  intros i. rewrite <- Hin, <- Hcat, in_concat. split.
  - intros (r & Hr & Hs). apply in_map_iff in Hr. destruct Hr as (g & <- & Hg).
    exists g. split; [exact Hg|].
    pose proof (proj1 (Forall_forall _ _) Hgood g Hg) as [Hne Hrun].
    now apply (shades_run m_t innerH m_l fill i Hdx Hne Hrun).
  - intros (g & Hg & Hi).
    exists (season_band dx m_t innerH (xBand m_l dx) fill g).
    split; [now apply in_map|].
    pose proof (proj1 (Forall_forall _ _) Hgood g Hg) as [Hne Hrun].
    now apply (shades_run m_t innerH m_l fill i Hdx Hne Hrun).
Qed.

Lemma season_bands_cover_months_witness :
  0 < 72 /\
  ~ (In 0 [5; 6; 7; 8] /\ In 11 [5; 6; 7; 8] /\ forall m, In m [5; 6; 7; 8] -> 0 <= m <= 11) /\
  exists rects,
    drawSeasonBands 72 32 374 (xBand 48 72) (Some [5; 6; 7; 8]) "dry" = Return rects /\
    forall i, (exists r, In r rects /\ shades 48 72 r i) <-> In i [5; 6; 7; 8].
Proof.
  assert (Hdx : 0 < 72) by lia.
  assert (Hno : ~ (In 0 [5; 6; 7; 8] /\ In 11 [5; 6; 7; 8] /\
                   forall m, In m [5; 6; 7; 8] -> 0 <= m <= 11)).
  { cbn [In]. lia. }
  split; [exact Hdx|]. split; [exact Hno|].
  exact (@season_bands_cover_months 72 32 374 48 [5; 6; 7; 8] "dry" Hdx Hno).
Defined.

(** X24.  When the months given are months of the year, with January and
    December among them and a month of the year missing, the band of the
    group that runs over the end of the year starts at its first month of the
    late year and is as wide as the whole group: it ends to the right of
    December's column, and the months from January up to the first month that
    is missing are not under any band.  The other months given are. *)
Theorem wrapped_band_misplaced :
  forall (dx m_t innerH m_l : Z) (nums : list Z) (fill : string),
    0 < dx ->
    In 0 nums -> In 11 nums ->
    (forall m, In m nums -> 0 <= m <= 11) ->
    (exists m, 0 <= m <= 11 /\ ~ In m nums) ->
    exists rects,
      drawSeasonBands dx m_t innerH (xBand m_l dx) (Some nums) fill = Return rects /\
      (forall i, 0 <= i <= 11 ->
         ((exists r, In r rects /\ shades m_l dx r i)
          <-> In i nums /\ exists j, 0 <= j <= i /\ ~ In j nums)) /\
      (exists r x, In r rects /\ rect_x r = Some x /\
                   xBand m_l dx 12 < x + rect_width r).
Proof.
  intros dx m_t innerH m_l nums fill Hdx Hjan Hdec Hyear (m0 & Hm0 & Hmiss).
  unfold drawSeasonBands.
  assert (Hne : nums <> []) by (intros ->; destruct Hjan).
  destruct (groupConsecutiveMonths_eq Hne) as (a0 & rest & Earr & ->).
  pose proof (arr_increasing nums) as Hinc. rewrite Earr in Hinc.
  assert (Hin : forall m, In m (a0 :: rest) <-> In m nums).
  { intros m. rewrite <- Earr. apply arr_In. }
  destruct (groups_of_arr a0 rest) as (Hcat & Hgood & _). cbv zeta in Hcat, Hgood.
  pose proof (groups_apart a0 rest Hinc) as Hap.
  assert (H0 : a0 = 0).
  { pose proof (proj1 (arr_bounds Hinc (proj2 (Hin 0) Hjan))).
    pose proof (Hyear a0 (proj1 (Hin a0) (or_introl eq_refl))). lia. }
  assert (H11 : last (a0 :: rest) 0 = 11).
  { pose proof (proj2 (arr_bounds Hinc (proj2 (Hin 11) Hdec))).
    assert (In (last (a0 :: rest) 0) (a0 :: rest)) by (apply last_In; discriminate).
    pose proof (Hyear _ (proj1 (Hin _) H1)). lia. }
  destruct (wrap_cases a0 rest)
    as [[Hno _] | [(_ & _ & HG & _) | (_ & _ & more & mid & lastg & HG & ->)]].
  { tauto. }
  { exfalso. apply Hmiss. apply Hin.
    rewrite HG in Hgood. apply Forall_inv in Hgood. destruct Hgood as [_ Hrun].
    rewrite (@consecutive_In rest a0 m0 Hrun).
    rewrite (@consecutive_last rest a0 0 Hrun) in H11. cbn [length]. lia. }
  rewrite HG in Hcat, Hgood, Hap. clear HG.
  pose proof (Forall_inv Hgood) as [_ Hfirst].
  apply Forall_inv_tail in Hgood. apply Forall_app in Hgood.
  destruct Hgood as [Hmid Hlast]. apply Forall_inv in Hlast.
  destruct Hlast as [Hlne Hlast].
  destruct Hap as [Hap _].
  assert (E11 : last lastg 0 = 11).
  { rewrite <- H11, <- Hcat.
    change ((0 :: more) :: mid ++ [lastg]) with (((0 :: more) :: mid) ++ [lastg]).
    symmetry. now apply last_of_groups. }
  destruct lastg as [|s t]; [congruence|]. clear Hlne.
  rewrite (@consecutive_last t s 0 Hlast) in E11.
  (* the months of [arr], by the group they are in *)
  assert (Harr : forall v, In v nums <->
                   In v (0 :: more) \/ In v (concat (mid ++ [s :: t]))).
  { intros v. rewrite <- Hin, <- Hcat. cbn [concat]. now rewrite in_app_iff. }
  assert (Hlater : forall v, In v (concat (mid ++ [s :: t])) <->
                     (exists g, In g mid /\ In v g) \/ In v (s :: t)).
  { intros v. rewrite concat_app, in_app_iff, in_concat. cbn [concat].
    now rewrite app_nil_r. }
  assert (Hfirst_In : forall v, In v (0 :: more) <-> 0 <= v < 1 + Z.of_nat (length more)).
  { intros v. rewrite (@consecutive_In more 0 v Hfirst). cbn [length]. lia. }
  assert (Hlast_In : forall v, In v (s :: t) <-> s <= v <= 11).
  { intros v. rewrite (@consecutive_In t s v Hlast). cbn [length]. lia. }
  rewrite (@consecutive_last more 0 0 Hfirst) in Hap.
  set (L := Z.of_nat (length more)) in *.
  assert (HL : 0 <= L) by (subst L; lia).
  assert (Hgap : ~ In (L + 1) nums).
  { rewrite Harr, Hfirst_In. intros [H | H]; [lia|].
    specialize (Hap _ H). lia. }
  eexists. split; [reflexivity|]. cbn [map]. split.
  - intros i Hi. split.
    + intros (r & [<- | Hr] & Hs).
      * cbn [app] in Hs.
        apply (shades_band m_t innerH m_l fill s (t ++ 0 :: more) i Hdx) in Hs.
        assert (Hil : In i (s :: t)) by (apply Hlast_In; lia).
        assert (Hic : In i (concat (mid ++ [s :: t]))) by (apply Hlater; now right).
        split; [apply Harr; now right|].
        exists (L + 1). specialize (Hap _ Hic). split; [lia|exact Hgap].
      * apply in_map_iff in Hr. destruct Hr as (g & <- & Hg).
        pose proof (proj1 (Forall_forall _ _) Hmid g Hg) as [Hgne Hrun].
        apply (shades_run m_t innerH m_l fill i Hdx Hgne Hrun) in Hs.
        assert (Hic : In i (concat (mid ++ [s :: t]))).
        { apply Hlater. left. now exists g. }
        split; [apply Harr; now right|].
        exists (L + 1). specialize (Hap _ Hic). split; [lia|exact Hgap].
    + intros (Hinum & j & Hj & Hjmiss).
      apply Harr in Hinum. destruct Hinum as [Hif | Hic].
      * exfalso. apply Hjmiss. apply Harr. left.
        apply Hfirst_In. apply Hfirst_In in Hif. lia.
      * apply Hlater in Hic. destruct Hic as [(g & Hg & Hig) | Hil].
        -- exists (season_band dx m_t innerH (xBand m_l dx) fill g).
           split; [right; now apply in_map|].
           pose proof (proj1 (Forall_forall _ _) Hmid g Hg) as [Hgne Hrun].
           now apply (shades_run m_t innerH m_l fill i Hdx Hgne Hrun).
        -- eexists. split; [left; reflexivity|].
           cbn [app].
           apply (shades_band m_t innerH m_l fill s (t ++ 0 :: more) i Hdx).
           apply Hlast_In in Hil. cbn [length]. rewrite length_app. cbn [length]. lia.
  - eexists. eexists. split; [left; reflexivity|].
    cbn [app season_band rect_x rect_width hd_error option_map].
    split; [reflexivity|].
    unfold xBand. cbn [length]. rewrite length_app. cbn [length].
    fold L. nia.
Qed.

Lemma wrapped_band_misplaced_witness :
  0 < 72 /\
  In 0 [10; 11; 0; 1; 2] /\ In 11 [10; 11; 0; 1; 2] /\
  (forall m, In m [10; 11; 0; 1; 2] -> 0 <= m <= 11) /\
  (exists m, 0 <= m <= 11 /\ ~ In m [10; 11; 0; 1; 2]) /\
  exists rects,
    drawSeasonBands 72 32 374 (xBand 48 72) (Some [10; 11; 0; 1; 2]) "wet" = Return rects /\
    (forall i, 0 <= i <= 11 ->
       ((exists r, In r rects /\ shades 48 72 r i)
        <-> In i [10; 11; 0; 1; 2] /\ exists j, 0 <= j <= i /\ ~ In j [10; 11; 0; 1; 2])) /\
    (exists r x, In r rects /\ rect_x r = Some x /\ xBand 48 72 12 < x + rect_width r).
Proof.
  assert (Hdx : 0 < 72) by lia.
  assert (Hjan : In 0 [10; 11; 0; 1; 2]) by (cbn [In]; lia).
  assert (Hdec : In 11 [10; 11; 0; 1; 2]) by (cbn [In]; lia).
  assert (Hyear : forall m, In m [10; 11; 0; 1; 2] -> 0 <= m <= 11).
  { intros m. cbn [In]. lia. }
  assert (Hmiss : exists m, 0 <= m <= 11 /\ ~ In m [10; 11; 0; 1; 2]).
  { exists 5. cbn [In]. lia. }
  repeat (split; [assumption|]).
  exact (@wrapped_band_misplaced 72 32 374 48 [10; 11; 0; 1; 2] "wet"
           Hdx Hjan Hdec Hyear Hmiss).
Defined.

End MonthFacts.
